(** * Aquarium search: a shallow embedding of the Shiny application

    The repository holds two variants of one reactive web application:
    [src/python/app.py] (search only) and
    [src/persistence/motherduck/app.py] (search, ratings stored in DuckDB or
    MotherDuck, a CSV fallback and a leaderboard).  This development embeds
    the parts of both that the specification talks about:

    - the search filter [filtered_data] (identical in both variants), down to
      the regular-expression reading that [Series.str.contains] gives to its
      pattern;
    - [sanitize_id] and the button identifiers derived from it;
    - the dataset loader and [featured_animals_df];
    - the rating store ([get_duckdb_connection], [initialize_ratings_table],
      [save_rating_to_duckdb], [get_ratings_summary], [save_rating]);
    - the per-session reactive state ([rated_animals], [button_observers],
      [rating_handler], the rating part of [search_results]).

    Text is modelled as [string] (a sequence of 8-bit characters); a cell of
    the data frame is an [option string], [None] standing for NaN. *)

From Stdlib Require Import String Ascii List Bool Arith Lia Permutation Sorted.
From stdpp Require Import base gmap strings.
Import ListNotations.

Local Open Scope string_scope.
Local Open Scope list_scope.
Local Open Scope nat_scope.

(** ** Text helpers *)

Module Text.

Definition chars (s : string) : list ascii := list_ascii_of_string s.

(** Texts are sequences of bytes; a text of ASCII characters is one byte
    per character. *)
Definition is_ascii_char (c : ascii) : bool := nat_of_ascii c <? 128.

Definition is_ascii (s : string) : bool := forallb is_ascii_char (chars s).

(** [str.lower()] on texts of ASCII characters: the letters A to Z are the
    only cased characters there.  On other texts Python folds further
    characters; the functions below that lowercase arbitrary text answer
    only when the text is ASCII. *)
Definition is_upper (c : ascii) : bool :=
  let n := nat_of_ascii c in (65 <=? n) && (n <=? 90).

Definition lower_char (c : ascii) : ascii :=
  if is_upper c then ascii_of_nat (nat_of_ascii c + 32) else c.

Fixpoint lower (s : string) : string :=
  match s with
  | EmptyString => EmptyString
  | String c s' => String (lower_char c) (lower s')
  end.

(** Python's [p in s] on character lists. *)
Fixpoint starts_with (p s : list ascii) : bool :=
  match p, s with
  | [], _ => true
  | _ :: _, [] => false
  | a :: p', b :: s' => Ascii.eqb a b && starts_with p' s'
  end.

Fixpoint contains_at_some_offset (p s : list ascii) : bool :=
  starts_with p s ||
  match s with
  | [] => false
  | _ :: s' => contains_at_some_offset p s'
  end.

Definition is_substring (p s : string) : bool :=
  contains_at_some_offset (chars p) (chars s).

Definition is_empty (s : string) : bool :=
  match s with EmptyString => true | _ => false end.

End Text.

(** ** Regular expressions, as [re.compile] and [re.search] treat them

    [Series.str.contains(pat, na=False)] is called with its default
    [regex=True]: pandas compiles [pat] with [re.compile] and keeps the rows
    on which [re.search] finds a match.  The fragment of the pattern syntax
    covered here: literal characters, [.], the quantifiers [*], [+], [?]
    (and their lazy forms), alternation, plain groups and character sets
    of ASCII characters with ranges and negation.  A pattern using anything
    else (anchors, backslash escapes, counted repetition, [(?...)]
    extensions, possessive quantifiers, a character beyond ASCII in a set)
    is reported as [Unsupported], never guessed. *)

Module Re.

Inductive regex : Type :=
| Void                                   (* matches nothing *)
| Eps                                    (* the empty string *)
| Chr (c : ascii)
| AnyChar                                (* [.]: anything but a newline *)
| CharSet (neg : bool) (items : list (ascii * ascii))
| Seq (r1 r2 : regex)
| Alt (r1 r2 : regex)
| Star (r : regex).

Definition newline : ascii := ascii_of_nat 10.

Definition in_range (c : ascii) (it : ascii * ascii) : bool :=
  (nat_of_ascii (fst it) <=? nat_of_ascii c) &&
  (nat_of_ascii c <=? nat_of_ascii (snd it)).

Definition accepts_char (r : regex) (c : ascii) : bool :=
  match r with
  | Chr a => Ascii.eqb a c
  | AnyChar => negb (Ascii.eqb c newline)
  | CharSet neg items => xorb neg (existsb (in_range c) items)
  | _ => false
  end.

(** The language of a pattern. *)
Inductive lang : regex -> list ascii -> Prop :=
| lang_eps : lang Eps []
| lang_chr c : lang (Chr c) [c]
| lang_any c : accepts_char AnyChar c = true -> lang AnyChar [c]
| lang_set neg items c :
    accepts_char (CharSet neg items) c = true -> lang (CharSet neg items) [c]
| lang_seq r1 r2 s1 s2 : lang r1 s1 -> lang r2 s2 -> lang (Seq r1 r2) (s1 ++ s2)
| lang_alt_l r1 r2 s : lang r1 s -> lang (Alt r1 r2) s
| lang_alt_r r1 r2 s : lang r2 s -> lang (Alt r1 r2) s
| lang_star_nil r : lang (Star r) []
| lang_star_cons r s1 s2 :
    lang r s1 -> lang (Star r) s2 -> lang (Star r) (s1 ++ s2).

(** An executable matcher by derivatives. *)
Fixpoint nullable (r : regex) : bool :=
  match r with
  | Void | Chr _ | AnyChar | CharSet _ _ => false
  | Eps | Star _ => true
  | Seq r1 r2 => nullable r1 && nullable r2
  | Alt r1 r2 => nullable r1 || nullable r2
  end.

Fixpoint deriv (c : ascii) (r : regex) : regex :=
  match r with
  | Void | Eps => Void
  | Chr _ | AnyChar | CharSet _ _ => if accepts_char r c then Eps else Void
  | Seq r1 r2 =>
      if nullable r1 then Alt (Seq (deriv c r1) r2) (deriv c r2)
      else Seq (deriv c r1) r2
  | Alt r1 r2 => Alt (deriv c r1) (deriv c r2)
  | Star r1 => Seq (deriv c r1) (Star r1)
  end.

(** Does some prefix of [s] belong to the language of [r]? *)
Fixpoint match_prefix (r : regex) (s : list ascii) : bool :=
  nullable r ||
  match s with
  | [] => false
  | c :: s' => match_prefix (deriv c r) s'
  end.

(** [re.search]: is there a match starting at some offset of [s]? *)
Fixpoint search (r : regex) (s : list ascii) : bool :=
  match_prefix r s ||
  match s with
  | [] => false
  | _ :: s' => search r s'
  end.

(** *** The pattern parser *)

Inductive error : Type :=
| NothingToRepeat
| MultipleRepeat
| UnbalancedParenthesis
| MissingParenthesis
| UnterminatedSet
| BadCharacterRange.

Inductive compiled : Type :=
| Pattern (r : regex)
| Error (e : error)
| Unsupported.

(** One nesting level: the alternatives already closed by [|] and the
    items of the branch being read, both most recent first. *)
Record frame : Type := { alts : list regex; items : list regex }.

Definition empty_frame : frame := {| alts := []; items := [] |}.

Definition seq_of (items_rev : list regex) : regex :=
  fold_left (fun acc r => Seq r acc) items_rev Eps.

Definition alt_of (f : frame) : regex :=
  fold_left (fun acc r => Alt r acc) (alts f) (seq_of (items f)).

(** What the last item of the branch allows next. *)
Inductive quant : Type :=
| Plain        (* an unquantified item, or no item yet *)
| Repeated     (* just quantified: a [?] would make it lazy *)
| Lazy.        (* quantified and lazy: no further quantifier *)

Inductive mode : Type :=
| Normal
| AfterOpen                                         (* just after [(] *)
| SetStart                                          (* just after [[] *)
| SetItem (neg : bool) (acc : list (ascii * ascii)) (first : bool)
| SetLo (neg : bool) (acc : list (ascii * ascii)) (lo : ascii)
| SetDash (neg : bool) (acc : list (ascii * ascii)) (lo : ascii).

Record pstate : Type :=
  { outer : list frame; cur : frame; last : quant; pmode : mode }.

Definition start : pstate :=
  {| outer := []; cur := empty_frame; last := Plain; pmode := Normal |}.

Definition push_item (st : pstate) (r : regex) : pstate :=
  {| outer := outer st;
     cur := {| alts := alts (cur st); items := r :: items (cur st) |};
     last := Plain; pmode := Normal |}.

Definition with_mode (st : pstate) (m : mode) : pstate :=
  {| outer := outer st; cur := cur st; last := last st; pmode := m |}.

Definition repeat_last (st : pstate) (wrap : regex -> regex)
  : pstate + compiled :=
  match last st, items (cur st) with
  | Plain, [] => inr (Error NothingToRepeat)
  | Plain, r :: rest =>
      inl {| outer := outer st;
             cur := {| alts := alts (cur st); items := wrap r :: rest |};
             last := Repeated; pmode := Normal |}
  | _, _ => inr (Error MultipleRepeat)
  end.

Definition single (c : ascii) : ascii * ascii := (c, c).

Definition close_set (st : pstate) (neg : bool) (acc : list (ascii * ascii))
  : pstate :=
  push_item st (CharSet neg (rev acc)).

(** Reading one character of a set once its first position is passed or
    being read. *)
Definition set_item (st : pstate) (neg : bool) (acc : list (ascii * ascii))
  (first : bool) (c : ascii) : pstate + compiled :=
  if Ascii.eqb c "]" && negb first then inl (close_set st neg acc)
  else if Ascii.eqb c "\" || negb (Text.is_ascii_char c) then inr Unsupported
  else inl (with_mode st (SetLo neg acc c)).

Definition normal_step (st : pstate) (c : ascii) : pstate + compiled :=
  if Ascii.eqb c "." then inl (push_item st AnyChar)
  else if Ascii.eqb c "*" then
    match last st with
    | Repeated | Lazy => inr (Error MultipleRepeat)
    | Plain => repeat_last st Star
    end
  else if Ascii.eqb c "+" then
    match last st with
    | Repeated => inr Unsupported      (* possessive from Python 3.11 on *)
    | Lazy => inr (Error MultipleRepeat)
    | Plain => repeat_last st (fun r => Seq r (Star r))
    end
  else if Ascii.eqb c "?" then
    match last st with
    | Repeated => inl {| outer := outer st; cur := cur st;
                         last := Lazy; pmode := Normal |}
    | Lazy => inr (Error MultipleRepeat)
    | Plain => repeat_last st (fun r => Alt r Eps)
    end
  else if Ascii.eqb c "|" then
    inl {| outer := outer st;
           cur := {| alts := seq_of (items (cur st)) :: alts (cur st);
                     items := [] |};
           last := Plain; pmode := Normal |}
  else if Ascii.eqb c "(" then
    inl {| outer := cur st :: outer st; cur := empty_frame;
           last := Plain; pmode := AfterOpen |}
  else if Ascii.eqb c ")" then
    match outer st with
    | [] => inr (Error UnbalancedParenthesis)
    | f :: fs =>
        inl {| outer := fs;
               cur := {| alts := alts f; items := alt_of (cur st) :: items f |};
               last := Plain; pmode := Normal |}
    end
  else if Ascii.eqb c "[" then inl (with_mode st SetStart)
  else if Ascii.eqb c "\" || Ascii.eqb c "^" || Ascii.eqb c "$"
          || Ascii.eqb c "{" then inr Unsupported
  else inl (push_item st (Chr c)).

Definition step (st : pstate) (c : ascii) : pstate + compiled :=
  match pmode st with
  | Normal => normal_step st c
  | AfterOpen =>
      if Ascii.eqb c "?" then inr Unsupported
      else normal_step (with_mode st Normal) c
  | SetStart =>
      if Ascii.eqb c "^" then inl (with_mode st (SetItem true [] true))
      else set_item st false [] true c
  | SetItem neg acc first => set_item st neg acc first c
  | SetLo neg acc lo =>
      if Ascii.eqb c "-" then inl (with_mode st (SetDash neg acc lo))
      else set_item st neg (single lo :: acc) false c
  | SetDash neg acc lo =>
      if Ascii.eqb c "]" then
        inl (close_set st neg (single "-" :: single lo :: acc))
      else if Ascii.eqb c "\" || negb (Text.is_ascii_char c) then
        inr Unsupported
      else if nat_of_ascii c <? nat_of_ascii lo then
        inr (Error BadCharacterRange)
      else inl (with_mode st (SetItem neg ((lo, c) :: acc) false))
  end.

Definition finish (st : pstate) : compiled :=
  match pmode st with
  | Normal | AfterOpen =>
      match outer st with
      | [] => Pattern (alt_of (cur st))
      | _ :: _ => Error MissingParenthesis
      end
  | _ => Error UnterminatedSet
  end.

Fixpoint run (st : pstate) (p : list ascii) : compiled :=
  match p with
  | [] => finish st
  | c :: p' =>
      match step st c with
      | inl st' => run st' p'
      | inr out => out
      end
  end.

(** [re.compile] *)
Definition compile (pat : string) : compiled := run start (Text.chars pat).

End Re.


(** ** The data frame of animals *)

Module Animal.

(** One row of [aquarium.csv].  [name] is always present; in every other
    column a cell may be missing (NaN). *)
Record t : Type :=
  { name : string;
    scientific_name : option string;
    diet : option string;
    habitat : option string;
    range : option string;
    physical_characteristics : option string;
    fun_fact : option string;
    conservation_status : option string;
    image_url : option string;
    url : option string;
    size : option string }.

End Animal.

(** What a call does: it returns, it raises, or it left the fragment of
    Python and pandas that this development covers. *)
Inductive exn : Type :=
| FileNotFoundError
| AttributeError
| re_error (e : Re.error).

Inductive outcome (A : Type) : Type :=
| Returns (a : A)
| Raises (e : exn)
| NotModelled.

Arguments Returns {A} a.
Arguments Raises {A} e.
Arguments NotModelled {A}.

(** ** The search filter: [filtered_data] of both variants *)

(** [Series.str.lower()]: NaN stays NaN. *)
Definition str_lower (cell : option string) : option string :=
  match cell with
  | Some v => Some (Text.lower v)
  | None => None
  end.

(** [Series.str.contains(pat, na=...)] on one cell, for a compiled [pat]. *)
Definition str_contains (pat : Re.regex) (na : bool) (cell : option string)
  : bool :=
  match cell with
  | Some v => Re.search pat (Text.chars v)
  | None => na
  end.

(** The eight columns that are searched, in the order of the source. *)
Definition searched_columns (a : Animal.t) : list (option string) :=
  [ Some (Animal.name a); Animal.scientific_name a; Animal.diet a;
    Animal.habitat a; Animal.range a; Animal.physical_characteristics a;
    Animal.fun_fact a; Animal.conservation_status a ].

Definition mask (pat : Re.regex) (a : Animal.t) : bool :=
  str_contains pat false (str_lower (Some (Animal.name a)))
  || str_contains pat false (str_lower (Animal.scientific_name a))
  || str_contains pat false (str_lower (Animal.diet a))
  || str_contains pat false (str_lower (Animal.habitat a))
  || str_contains pat false (str_lower (Animal.range a))
  || str_contains pat false (str_lower (Animal.physical_characteristics a))
  || str_contains pat false (str_lower (Animal.fun_fact a))
  || str_contains pat false (str_lower (Animal.conservation_status a)).

(** The [.str] accessor of a column.  A column read from the file holds
    strings and missing values; one that has rows but not a single string
    has been read as numbers, and the accessor raises [AttributeError]
    there.  A column without rows has the accessor. *)
Definition has_str_accessor (column : list (option string)) : bool :=
  match column with
  | [] => true
  | _ :: _ =>
      existsb (fun cell => match cell with Some _ => true | None => false end)
        column
  end.

(** The searched columns after [name], in the order in which the mask
    reads them. *)
Definition columns_after_name (aquarium_data : list Animal.t)
  : list (list (option string)) :=
  [ map Animal.scientific_name aquarium_data;
    map Animal.diet aquarium_data;
    map Animal.habitat aquarium_data;
    map Animal.range aquarium_data;
    map Animal.physical_characteristics aquarium_data;
    map Animal.fun_fact aquarium_data;
    map Animal.conservation_status aquarium_data ].

Definition ascii_cell (cell : option string) : bool :=
  match cell with
  | Some v => Text.is_ascii v
  | None => true
  end.

(** Is every searched cell of every row a text of ASCII characters? *)
Definition ascii_cells (aquarium_data : list Animal.t) : bool :=
  forallb (fun a => forallb ascii_cell (searched_columns a)) aquarium_data.

(** The mask is built column by column, [name] first: the pattern is
    compiled when the first [contains] runs, so an error of the pattern is
    raised before the accessor of any later column is asked for.  Rows are
    given only for a query and cells of ASCII characters: beyond them the
    lowercasing and the matching of this development are not Python's. *)
Definition filtered_data (aquarium_data : list Animal.t) (query : string)
  : outcome (list Animal.t) :=
  if Text.is_empty query then Returns []
  else
    let query_lower := Text.lower query in
    match Re.compile query_lower with
    | Re.Pattern pat =>
        if negb (Text.is_ascii query) then NotModelled
        else if negb (forallb has_str_accessor
                        (columns_after_name aquarium_data))
        then Raises AttributeError
        else if negb (ascii_cells aquarium_data) then NotModelled
        else Returns (List.filter (mask pat) aquarium_data)
    | Re.Error e => Raises (re_error e)
    | Re.Unsupported => NotModelled
    end.

(** The filter as the specification words it: a row is kept when the
    lowercased query is a substring of the lowercased value of one of the
    eight columns, a missing value never matching. *)
Definition spec_cell_matches (query : string) (cell : option string) : bool :=
  match cell with
  | Some v => Text.is_substring (Text.lower query) (Text.lower v)
  | None => false
  end.

Definition spec_row_matches (query : string) (a : Animal.t) : bool :=
  existsb (spec_cell_matches query) (searched_columns a).

Definition spec_filter (aquarium_data : list Animal.t) (query : string)
  : list Animal.t :=
  List.filter (spec_row_matches query) aquarium_data.

(** The characters that [re.compile] does not read as themselves. *)
Definition is_special (c : ascii) : bool :=
  existsb (Ascii.eqb c) (Text.chars ".^$*+?{}[]\|()").

Definition plain_text (s : string) : bool :=
  forallb (fun c => negb (is_special c)) (Text.chars s).

(** ** Button identifiers: [sanitize_id] *)

Definition is_alnum (c : ascii) : bool :=
  let n := nat_of_ascii c in
  ((48 <=? n) && (n <=? 57)) || ((65 <=? n) && (n <=? 90))
  || ((97 <=? n) && (n <=? 122)).

Definition underscore : ascii := "_"%char.

(** [re.sub(r'[^a-zA-Z0-9]', '_', name)] *)
Definition replace_non_alnum (s : list ascii) : list ascii :=
  map (fun c => if is_alnum c then c else underscore) s.

(** [re.sub(r'_+', '_', s)]; [after_us] tells that the previous character
    was an underscore already written. *)
Fixpoint collapse_underscores (after_us : bool) (s : list ascii) : list ascii :=
  match s with
  | [] => []
  | c :: s' =>
      if Ascii.eqb c underscore then
        if after_us then collapse_underscores true s'
        else c :: collapse_underscores true s'
      else c :: collapse_underscores false s'
  end.

Fixpoint lstrip_underscores (s : list ascii) : list ascii :=
  match s with
  | [] => []
  | c :: s' => if Ascii.eqb c underscore then lstrip_underscores s' else s
  end.

(** [s.strip('_')] *)
Definition strip_underscores (s : list ascii) : list ascii :=
  rev (lstrip_underscores (rev (lstrip_underscores s))).

Definition sanitize_id (name : string) : string :=
  string_of_list_ascii
    (strip_underscores
       (collapse_underscores false (replace_non_alnum (Text.chars name)))).

Definition love_button_id (name : string) : string :=
  String.append "love_" (sanitize_id name).

Definition nope_button_id (name : string) : string :=
  String.append "nope_" (sanitize_id name).

(** ** Loading the dataset and choosing the featured animals *)

Definition sample_row (name sci diet habitat range phys fact status : string)
  : Animal.t :=
  {| Animal.name := name;
     Animal.scientific_name := Some sci;
     Animal.diet := Some diet;
     Animal.habitat := Some habitat;
     Animal.range := Some range;
     Animal.physical_characteristics := Some phys;
     Animal.fun_fact := Some fact;
     Animal.conservation_status := Some status;
     Animal.image_url := Some EmptyString;
     Animal.url := Some "#";
     Animal.size := None |}.

Definition fallback_dataset : list Animal.t :=
  [ sample_row "Sample Fish" "Fishus sampleus" "Omnivore" "Ocean" "Global"
      "Colorful" "Very colorful" "Stable";
    sample_row "Sample Shark" "Sharkus sampleus" "Carnivore" "Deep Sea"
      "Pacific" "Large teeth" "Apex predator" "Vulnerable";
    sample_row "Sample Turtle" "Turtleus sampleus" "Herbivore" "Coastal"
      "Atlantic" "Hard shell" "Long lived" "Endangered" ].

(** What a module prints while it is imported, and what the process does:
    it carries on with a data frame, or it dies on an exception. *)
Record startup : Type :=
  { printed : list string; aquarium_data : outcome (list Animal.t) }.

(** [pd.read_csv] is an external collaborator: [csv] is [None] when the file
    is absent and the parsed table otherwise. *)
Module PythonApp.

(** [src/python/app.py], line 8: no handler around [read_csv]. *)
Definition load_aquarium_data (csv : option (list Animal.t)) : startup :=
  match csv with
  | Some table => {| printed := []; aquarium_data := Returns table |}
  | None => {| printed := []; aquarium_data := Raises FileNotFoundError |}
  end.

End PythonApp.

Module MotherduckApp.

(** [src/persistence/motherduck/app.py], lines 149-171. *)
Definition load_aquarium_data (path : string) (csv : option (list Animal.t))
  : startup :=
  match csv with
  | Some table =>
      {| printed := [String.append "Successfully loaded aquarium data from " path];
         aquarium_data := Returns table |}
  | None =>
      {| printed := [String.append "Could not find aquarium.csv at " path;
                     "Using fallback sample data"];
         aquarium_data := Returns fallback_dataset |}
  end.

End MotherduckApp.

Definition featured_animal_names : list string :=
  [ "Sea Otter"; "Beluga Whale"; "Penguin"; "Seahorse";
    "Sea Turtle"; "Octopus"; "Jellyfish"; "Shark" ].

(** [Series.isin] *)
Definition isin (names : list string) (a : Animal.t) : bool :=
  existsb (String.eqb (Animal.name a)) names.

Definition featured_animals_df (data : list Animal.t) : list Animal.t :=
  let featured := List.filter (isin featured_animal_names) data in
  if length featured <? 8 then firstn 8 data else featured.


(** ** The rating store: DuckDB, MotherDuck and the CSV fallback *)

Definition love_rating : string := "Literally in love".
Definition nope_rating : string := "Not my type".

(** A row of the table [ratings].  [id] and [timestamp] are filled by the
    column defaults ([gen_random_uuid()], [CURRENT_TIMESTAMP]). *)
Record rating_row : Type :=
  { id : string;
    timestamp : string;
    session_id : string;
    animal_name : string;
    rating : string }.

(** One database: the table [ratings], absent or with its rows in insertion
    order, and whether the index [idx_ratings_animal_rating] exists. *)
Record database : Type :=
  { ratings : option (list rating_row);
    idx_ratings_animal_rating : bool }.

Inductive backend : Type :=
| motherduck          (* [md:aquarium] *)
| local.              (* [local_ratings.duckdb] *)

(** Everything outside the process that the rating code reads or writes:
    the hosted database, the local database file and
    [ratings_backup.csv], absent or a list of CSV records. *)
Record world : Type :=
  { motherduck_db : database;
    local_db : database;
    ratings_backup : option (list (list string)) }.

(** What the environment decides at one call: whether each [duckdb.connect]
    succeeds, the clock and the next random UUID. *)
Record env : Type :=
  { motherduck_up : bool;
    local_up : bool;
    now : string;
    fresh_uuid : string }.

Definition db_of (b : backend) (w : world) : database :=
  match b with
  | motherduck => motherduck_db w
  | local => local_db w
  end.

Definition set_db (b : backend) (d : database) (w : world) : world :=
  match b with
  | motherduck =>
      {| motherduck_db := d; local_db := local_db w;
         ratings_backup := ratings_backup w |}
  | local =>
      {| motherduck_db := motherduck_db w; local_db := d;
         ratings_backup := ratings_backup w |}
  end.

(** [get_duckdb_connection]: [None] when the exception of the last
    [duckdb.connect] leaves the function. *)
Definition get_duckdb_connection (MOTHERDUCK_TOKEN : string) (e : env)
  : option backend :=
  if negb (Text.is_empty MOTHERDUCK_TOKEN) then
    if motherduck_up e then Some motherduck
    else if local_up e then Some local else None
  else
    if local_up e then Some local
    else if local_up e then Some local else None.

(** [CREATE TABLE IF NOT EXISTS] followed by [CREATE INDEX IF NOT EXISTS]. *)
Definition create_table_if_not_exists (d : database) : database :=
  {| ratings := match ratings d with
                | Some rows => Some rows
                | None => Some []
                end;
     idx_ratings_animal_rating := idx_ratings_animal_rating d |}.

Definition create_index_if_not_exists (d : database) : option database :=
  match ratings d with
  | Some _ => Some {| ratings := ratings d; idx_ratings_animal_rating := true |}
  | None => None                       (* no such table: the statement fails *)
  end.

Definition initialize_ratings_table (MOTHERDUCK_TOKEN : string) (e : env)
  (w : world) : world * bool :=
  match get_duckdb_connection MOTHERDUCK_TOKEN e with
  | None => (w, false)
  | Some b =>
      let d1 := create_table_if_not_exists (db_of b w) in
      match create_index_if_not_exists d1 with
      | Some d2 => (set_db b d2 w, true)
      | None => (set_db b d1 w, false)
      end
  end.

Definition save_rating_to_duckdb (MOTHERDUCK_TOKEN : string) (e : env)
  (w : world) (animal_name rating session_id : string) : world * bool :=
  match get_duckdb_connection MOTHERDUCK_TOKEN e with
  | None => (w, false)
  | Some b =>
      match ratings (db_of b w) with
      | None => (w, false)             (* [INSERT] into a missing table *)
      | Some rows =>
          let row := {| id := fresh_uuid e; timestamp := now e;
                        session_id := session_id;
                        animal_name := animal_name;
                        rating := rating |} in
          (set_db b {| ratings := Some (rows ++ [row]);
                       idx_ratings_animal_rating :=
                         idx_ratings_animal_rating (db_of b w) |} w,
           true)
      end
  end.

(** *** The leaderboard query *)

(** [WHERE rating = value] *)
Definition rows_with_rating (value : string) (rows : list rating_row)
  : list rating_row :=
  List.filter (fun r => String.eqb (rating r) value) rows.

(** [GROUP BY animal_name] with [COUNT( * )], groups in order of first
    appearance. *)
Fixpoint bump (a : string) (groups : list (string * nat))
  : list (string * nat) :=
  match groups with
  | [] => [(a, 1)]
  | (b, n) :: rest =>
      if String.eqb a b then (b, S n) :: rest else (b, n) :: bump a rest
  end.

Definition group_counts (rows : list rating_row) : list (string * nat) :=
  fold_left (fun groups r => bump (animal_name r) groups) rows [].

(** [ORDER BY n DESC]: the database may answer with any arrangement of the
    groups in which the counts never increase. *)
Definition count_desc (x y : string * nat) : Prop := snd y <= snd x.

Definition sql_top10 (rows : list rating_row) (value : string)
  (out : list (string * nat)) : Prop :=
  exists full,
    Permutation full (group_counts (rows_with_rating value rows))
    /\ StronglySorted count_desc full
    /\ out = firstn 10 full.

(** One such arrangement, computed: a stable insertion sort, ties in order
    of first appearance. *)
Fixpoint insert_desc (x : string * nat) (l : list (string * nat))
  : list (string * nat) :=
  match l with
  | [] => [x]
  | y :: l' => if snd x <? snd y then y :: insert_desc x l' else x :: y :: l'
  end.

Definition order_by_n_desc (l : list (string * nat)) : list (string * nat) :=
  fold_right insert_desc [] l.

Definition top10 (rows : list rating_row) (value : string)
  : list (string * nat) :=
  firstn 10 (order_by_n_desc (group_counts (rows_with_rating value rows))).

Record summary : Type :=
  { love : list (string * nat); nope : list (string * nat) }.

(** [get_ratings_summary]; [None] is the "no ratings" sentinel. *)
Definition get_ratings_summary (MOTHERDUCK_TOKEN : string) (e : env)
  (w : world) : option summary :=
  match get_duckdb_connection MOTHERDUCK_TOKEN e with
  | None => None
  | Some b =>
      match ratings (db_of b w) with
      | None => None
      | Some [] => None
      | Some rows =>
          Some {| love := top10 rows love_rating;
                  nope := top10 rows nope_rating |}
      end
  end.

(** Every answer the function may give, whatever order the database picks
    among equal counts. *)
Inductive ratings_summary_answer (MOTHERDUCK_TOKEN : string) (e : env)
  (w : world) : option summary -> Prop :=
| answer_no_connection :
    get_duckdb_connection MOTHERDUCK_TOKEN e = None ->
    ratings_summary_answer MOTHERDUCK_TOKEN e w None
| answer_no_table b :
    get_duckdb_connection MOTHERDUCK_TOKEN e = Some b ->
    ratings (db_of b w) = None ->
    ratings_summary_answer MOTHERDUCK_TOKEN e w None
| answer_no_rows b :
    get_duckdb_connection MOTHERDUCK_TOKEN e = Some b ->
    ratings (db_of b w) = Some [] ->
    ratings_summary_answer MOTHERDUCK_TOKEN e w None
| answer_rows b rows lv np :
    get_duckdb_connection MOTHERDUCK_TOKEN e = Some b ->
    ratings (db_of b w) = Some rows ->
    rows <> [] ->
    sql_top10 rows love_rating lv ->
    sql_top10 rows nope_rating np ->
    ratings_summary_answer MOTHERDUCK_TOKEN e w
      (Some {| love := lv; nope := np |}).

(** The count a summary shows for an animal under a rating value; nothing
    shown counts as zero. *)
Fixpoint count_in (l : list (string * nat)) (a : string) : nat :=
  match l with
  | [] => 0
  | (b, n) :: rest => if String.eqb a b then n else count_in rest a
  end.

Definition listed (l : list (string * nat)) (a : string) : bool :=
  existsb (fun p => String.eqb a (fst p)) l.

Definition summary_list (res : option summary) (value : string)
  : list (string * nat) :=
  match res with
  | None => []
  | Some s =>
      if String.eqb value love_rating then love s
      else if String.eqb value nope_rating then nope s
      else []
  end.

Definition summary_count (res : option summary) (value a : string) : nat :=
  count_in (summary_list res value) a.

(** The number of stored events for an animal under a rating value. *)
Definition stored_count (rows : list rating_row) (value a : string) : nat :=
  length (List.filter (fun r => String.eqb (animal_name r) a)
            (rows_with_rating value rows)).

(** *** [save_rating] with its CSV fallback *)

Definition backup_header : list string :=
  ["timestamp"; "session_id"; "animal_name"; "rating"].

Definition backup_record (e : env) (animal_name rating session_id : string)
  : list string :=
  [now e; session_id; animal_name; rating].

(** [DataFrame.to_csv]: a new file gets the header and the record, an
    existing one the record only. *)
Definition append_backup (file : option (list (list string)))
  (rec : list string) : option (list (list string)) :=
  match file with
  | None => Some [backup_header; rec]
  | Some records => Some (records ++ [rec])
  end.

Definition save_rating (MOTHERDUCK_TOKEN : string) (e : env) (w : world)
  (animal_name rating session_id : string) : world :=
  let '(w', duckdb_success) :=
    save_rating_to_duckdb MOTHERDUCK_TOKEN e w animal_name rating session_id in
  if duckdb_success then w'
  else
    {| motherduck_db := motherduck_db w';
       local_db := local_db w';
       ratings_backup :=
         append_backup (ratings_backup w')
           (backup_record e animal_name rating session_id) |}.


(** ** One browser session: the state of [server] *)

Inductive rating_key : Type :=
| love_key            (* ["love"] *)
| nope_key.           (* ["nope"] *)

(** The arguments [create_rating_observer] closes over. *)
Record observer : Type :=
  { observed_animal : string;
    observed_button : string;
    rating_type : string;
    key : rating_key }.

(** [ui.notification_show(..., type="message")] *)
Inductive notification : Type :=
| recorded_your_love (animal : string)
| noted_not_your_type (animal : string).

Record session : Type :=
  { sid : string;
    rated_animals : gmap string rating_key;
    ratings_trigger : nat;
    button_observers : gmap string observer;
    notifications : list notification }.

Definition new_session (sid : string) : session :=
  {| sid := sid; rated_animals := ∅; ratings_trigger := 0;
     button_observers := ∅; notifications := [] |}.

Definition notification_for (k : rating_key) (animal : string) : notification :=
  match k with
  | love_key => recorded_your_love animal
  | nope_key => noted_not_your_type animal
  end.

(** [rating_handler], the body of the effect made by
    [create_rating_observer]; [button_value] is what [getattr(input,
    button_id)()] gives, [None] before the button has a value. *)
Definition rating_handler (MOTHERDUCK_TOKEN : string) (o : observer)
  (button_value : option nat) (e : env) (w : world) (s : session)
  : world * session :=
  match button_value with
  | Some (S _) =>
      let current_ratings := rated_animals s in
      match current_ratings !! observed_animal o with
      | Some _ => (w, s)
      | None =>
          let w' := save_rating MOTHERDUCK_TOKEN e w
                      (observed_animal o) (rating_type o) (sid s) in
          (w',
           {| sid := sid s;
              rated_animals := <[observed_animal o := key o]> current_ratings;
              ratings_trigger := ratings_trigger s + 1;
              button_observers := button_observers s;
              notifications :=
                notifications s ++ [notification_for (key o) (observed_animal o)]
           |})
      end
  | _ => (w, s)
  end.

(** The last element of a card. *)
Inductive rating_element : Type :=
| thank_you_message (k : rating_key)
| rating_buttons (love_id nope_id : string).

Record card : Type := { card_name : string; card_rating : rating_element }.

(** [if button_id not in button_observers: button_observers[button_id] = ...] *)
Definition register (o : observer) (observers : gmap string observer)
  : gmap string observer :=
  match observers !! observed_button o with
  | Some _ => observers
  | None => <[observed_button o := o]> observers
  end.

Definition love_observer (name : string) : observer :=
  {| observed_animal := name; observed_button := love_button_id name;
     rating_type := love_rating; key := love_key |}.

Definition nope_observer (name : string) : observer :=
  {| observed_animal := name; observed_button := nope_button_id name;
     rating_type := nope_rating; key := nope_key |}.

Definition rating_part (current_ratings : gmap string rating_key)
  (name : string) : rating_element :=
  match current_ratings !! name with
  | Some k => thank_you_message k
  | None => rating_buttons (love_button_id name) (nope_button_id name)
  end.

(** The loop of [search_results] over the filtered rows, as far as ratings
    are concerned: observers are registered, the card ends with the buttons
    or with the acknowledgment. *)
Fixpoint render_cards (current_ratings : gmap string rating_key)
  (data : list Animal.t) (observers : gmap string observer)
  : list card * gmap string observer :=
  match data with
  | [] => ([], observers)
  | animal :: rest =>
      let name := Animal.name animal in
      let observers1 := register (love_observer name) observers in
      let observers2 := register (nope_observer name) observers1 in
      let '(cards, observers') := render_cards current_ratings rest observers2 in
      ({| card_name := name; card_rating := rating_part current_ratings name |}
         :: cards,
       observers')
  end.

Definition search_results (data : list Animal.t) (s : session)
  : list card * session :=
  let '(cards, observers) :=
    render_cards (rated_animals s) data (button_observers s) in
  (cards,
   {| sid := sid s; rated_animals := rated_animals s;
      ratings_trigger := ratings_trigger s;
      button_observers := observers;
      notifications := notifications s |}).

(** What can happen during the life of a session. *)
Inductive event : Type :=
| render (data : list Animal.t)
    (* [search_results] runs on the current filtered rows *)
| fire (button_id : string) (button_value : option nat) (e : env)
    (* the effect registered for [button_id] runs, after a click or any
       other invalidation *)
| other_session (other_sid animal rating : string) (e : env).
    (* another session saves a rating of its own *)

Definition step (MOTHERDUCK_TOKEN : string) (st : world * session) (ev : event)
  : world * session :=
  let '(w, s) := st in
  match ev with
  | render data => (w, snd (search_results data s))
  | fire button_id button_value e =>
      match button_observers s !! button_id with
      | Some o => rating_handler MOTHERDUCK_TOKEN o button_value e w s
      | None => (w, s)
      end
  | other_session other_sid animal rating e =>
      (save_rating MOTHERDUCK_TOKEN e w animal rating other_sid, s)
  end.

Definition run (MOTHERDUCK_TOKEN : string) (st : world * session)
  (trace : list event) : world * session :=
  fold_left (step MOTHERDUCK_TOKEN) trace st.

(** The events of other sessions carry other session identifiers. *)
Definition foreign (own_sid : string) (ev : event) : bool :=
  match ev with
  | other_session other_sid _ _ _ => negb (String.eqb other_sid own_sid)
  | _ => true
  end.

(** The rating events on record for a session and an animal: the rows of
    both databases and the event records of the backup file. *)
Definition rows_of (d : database) : list rating_row :=
  match ratings d with
  | Some rows => rows
  | None => []
  end.

Definition row_from (own_sid a : string) (r : rating_row) : bool :=
  String.eqb (session_id r) own_sid && String.eqb (animal_name r) a.

Definition record_from (own_sid a : string) (rec : list string) : bool :=
  match rec with
  | [_; s; n; _] => String.eqb s own_sid && String.eqb n a
  | _ => false
  end.

Definition is_header (rec : list string) : bool :=
  if List.list_eq_dec string_dec rec backup_header then true else false.

(** The records of the backup file that are events: all of them, but for a
    first record that is the header line. *)
Definition backup_records (file : option (list (list string)))
  : list (list string) :=
  match file with
  | Some (first :: records) =>
      if is_header first then records else first :: records
  | Some [] => []
  | None => []
  end.

Definition recorded (w : world) (own_sid a : string) : nat :=
  length (List.filter (row_from own_sid a) (rows_of (motherduck_db w)))
  + length (List.filter (row_from own_sid a) (rows_of (local_db w)))
  + length (List.filter (record_from own_sid a)
              (backup_records (ratings_backup w))).


(** ** Definitions used to state the results *)

(** The pattern a text without special characters compiles to. *)
Definition literal (p : list ascii) : Re.regex :=
  fold_right Re.Seq Re.Eps (map Re.Chr p).

(** A row with a name and nothing else. *)
Definition row_named (name : string) : Animal.t :=
  {| Animal.name := name;
     Animal.scientific_name := None; Animal.diet := None;
     Animal.habitat := None; Animal.range := None;
     Animal.physical_characteristics := None; Animal.fun_fact := None;
     Animal.conservation_status := None; Animal.image_url := None;
     Animal.url := None; Animal.size := None |}.

(** The rows of the example in the specification, and a fourth one. *)
Definition example_dataset : list Animal.t :=
  [ row_named "Shark";
    row_named "Whale Shark";
    {| Animal.name := "Seahorse";
       Animal.scientific_name := Some "Hippocampus";
       Animal.diet := Some "Carnivore";
       Animal.habitat := Some "Seagrass beds";
       Animal.range := Some "Temperate coasts";
       Animal.physical_characteristics := Some "Curled tail";
       Animal.fun_fact := Some "Has a Shark-like appetite";
       Animal.conservation_status := Some "Vulnerable";
       Animal.image_url := None; Animal.url := None; Animal.size := None |};
    row_named "Octopus" ].

(** The rows whose name is one of [names], as the specification words the
    featured set. *)
Definition rows_named (names : list string) (data : list Animal.t)
  : list Animal.t :=
  List.filter
    (fun a => if in_dec string_dec (Animal.name a) names then true else false)
    data.

(** A database that answers the summary with the sentinel: no table, or a
    table without rows. *)
Definition no_ratings (d : database) : bool :=
  match ratings d with
  | None | Some [] => true
  | Some (_ :: _) => false
  end.

(** The number of rows of an animal. *)
Definition occurrences (a : string) (rows : list rating_row) : nat :=
  length (List.filter (fun r => String.eqb (animal_name r) a) rows).

(** Groups are well formed when no animal heads two groups and no group is
    empty. *)
Definition groups_wf (g : list (string * nat)) : Prop :=
  List.NoDup (map fst g) /\ Forall (fun p => 0 < snd p) g.

(** What makes a list the top ten of a rating value: at most ten groups,
    one per animal, each with the number of stored events of the animal,
    counts never increasing, nothing left out that counts more than a
    listed animal, and nobody left out while there is room. *)
Definition is_top_ten (rows : list rating_row) (value : string)
  (out : list (string * nat)) : Prop :=
  length out <= 10
  /\ StronglySorted count_desc out
  /\ List.NoDup (map fst out)
  /\ (forall a n, In (a, n) out -> n = stored_count rows value a /\ 0 < n)
  /\ (forall a b m, listed out a = false -> In (b, m) out ->
        stored_count rows value a <= m)
  /\ (length out < 10 ->
      forall a, 0 < stored_count rows value a -> listed out a = true).

(** The rows of the table that a call made under [e] reaches. *)
Definition connected_rows (MOTHERDUCK_TOKEN : string) (e : env) (w : world)
  : list rating_row :=
  match get_duckdb_connection MOTHERDUCK_TOKEN e with
  | Some b => rows_of (db_of b w)
  | None => []
  end.

(** *** Sample states *)

Definition online : env :=
  {| motherduck_up := true; local_up := true;
     now := "2025-01-01T12:00:00"; fresh_uuid := "0000-0001" |}.

Definition offline : env :=
  {| motherduck_up := false; local_up := false;
     now := "2025-01-01T12:00:00"; fresh_uuid := "0000-0002" |}.

Definition vote (a value : string) : rating_row :=
  {| id := "0000-0000"; timestamp := "2025-01-01T09:00:00";
     session_id := "session_20250101_090000_abcdef01";
     animal_name := a; rating := value |}.

Definition table_of (rows : list rating_row) : database :=
  {| ratings := Some rows; idx_ratings_animal_rating := true |}.

Definition no_table : database :=
  {| ratings := None; idx_ratings_animal_rating := false |}.

Definition one_vote_world : world :=
  {| motherduck_db := table_of [vote "Shark" love_rating];
     local_db := table_of [vote "Shark" love_rating];
     ratings_backup := None |}.

Definition ten_animals : list string :=
  [ "Sea Otter"; "Beluga Whale"; "Penguin"; "Sea Turtle"; "Octopus";
    "Jellyfish"; "Shark"; "Manta Ray"; "Clownfish"; "Sea Lion" ].

(** Ten animals with two love votes each. *)
Definition crowded_world : world :=
  {| motherduck_db := no_table;
     local_db :=
       table_of (map (fun a => vote a love_rating) (ten_animals ++ ten_animals));
     ratings_backup := None |}.

Definition empty_table_world : world :=
  {| motherduck_db := no_table; local_db := table_of [];
     ratings_backup := None |}.

(** *** Invariants of a session *)

(** The registry holds, under each identifier, an observer made for that
    identifier, and the love and nope observers of a name were made together
    for one animal. *)
Definition observers_ok (observers : gmap string observer) : Prop :=
  (forall bid o, observers !! bid = Some o ->
     observed_button o = bid
     /\ (o = love_observer (observed_animal o)
         \/ o = nope_observer (observed_animal o)))
  /\ (forall name,
        match observers !! love_button_id name,
              observers !! nope_button_id name with
        | Some o1, Some o2 => observed_animal o1 = observed_animal o2
        | None, None => True
        | _, _ => False
        end).

Definition session_ok (own : string) (s : session) : Prop :=
  sid s = own
  /\ observers_ok (button_observers s)
  /\ (forall a k, rated_animals s !! a = Some k ->
        exists o, button_observers s !! love_button_id a = Some o
                  /\ observed_animal o = a).

(** One more event on record at most, and only for a rated animal. *)
Definition rated_once (s : session) (a : string) : nat :=
  match rated_animals s !! a with
  | Some _ => 1
  | None => 0
  end.

Definition sample_trace : list event :=
  [ render [row_named "Shark"; row_named "Sea Otter"];
    fire (love_button_id "Shark") (Some 1) online;
    fire (love_button_id "Shark") (Some 2) offline;
    other_session "session_b" "Shark" love_rating online;
    fire (nope_button_id "Shark") (Some 1) online ].


(** ** The rest of [server]: cleaning text, cards, counters, panels *)

(** The double quote character. *)
Definition dquote : ascii := ascii_of_nat 34.

(** [clean_text] first deletes what matches a pattern of two alternatives.
    The first alternative: a quote at the very start. *)
Definition strip_leading_quote (s : list ascii) : list ascii :=
  match s with
  | c :: rest => if Ascii.eqb c dquote then rest else s
  | [] => []
  end.

(** Its second alternative: a quote at the very end, or just before a final
    newline, which is where [$] matches. *)
Fixpoint strip_trailing_quote (s : list ascii) : list ascii :=
  match s with
  | [] => []
  | c :: rest =>
      match rest with
      | [] => if Ascii.eqb c dquote then [] else [c]
      | [d] =>
          if Ascii.eqb d dquote then [c]
          else if Ascii.eqb c dquote && Ascii.eqb d Re.newline then [d]
          else [c; d]
      | _ :: _ :: _ => c :: strip_trailing_quote rest
      end
  end.

(** The second substitution of [clean_text]: pairs of quotes, read from
    the left, become one quote each. *)
Fixpoint undouble_quotes (s : list ascii) : list ascii :=
  match s with
  | c :: rest =>
      match rest with
      | d :: rest' =>
          if Ascii.eqb c dquote && Ascii.eqb d dquote
          then dquote :: undouble_quotes rest'
          else c :: undouble_quotes rest
      | [] => [c]
      end
  | [] => []
  end.

Definition clean_text (text : option string) : string :=
  match text with
  | None => EmptyString
  | Some t =>
      if Text.is_empty t then EmptyString
      else string_of_list_ascii
             (undouble_quotes
                (strip_trailing_quote (strip_leading_quote (Text.chars t))))
  end.

(** How a CSV writer quotes a field: every quote doubled, the whole between
    quotes. *)
Fixpoint double_quotes (s : list ascii) : list ascii :=
  match s with
  | [] => []
  | c :: rest =>
      if Ascii.eqb c dquote then dquote :: dquote :: double_quotes rest
      else c :: double_quotes rest
  end.

Definition csv_quoted (s : string) : string :=
  string_of_list_ascii
    (dquote :: double_quotes (Text.chars s) ++ [dquote]).

(** [re.search(pattern, text)] for a pattern written in the source. *)
Definition re_search (pattern text : string) : outcome bool :=
  match Re.compile pattern with
  | Re.Pattern pat => Returns (Re.search pat (Text.chars text))
  | Re.Error e => Raises (re_error e)
  | Re.Unsupported => NotModelled
  end.

Inductive conservation : Type :=
| conservation_stable
| conservation_endangered
| conservation_vulnerable.

(** The colour class of the conservation status in [search_results]. *)
Definition conservation_class (status : option string) : outcome conservation :=
  match status with
  | None => Returns conservation_stable
  | Some v =>
      let status := Text.lower v in
      match re_search "endangered|critically" status with
      | Returns true => Returns conservation_endangered
      | Returns false =>
          match re_search "vulnerable|near threatened" status with
          | Returns true => Returns conservation_vulnerable
          | Returns false => Returns conservation_stable
          | Raises e => Raises e
          | NotModelled => NotModelled
          end
      | Raises e => Raises e
      | NotModelled => NotModelled
      end
  end.

(** The text under the search box. *)
Inductive count_text : Type :=
| no_results_found
| one_result
| n_results (n : nat)
| blank.

Definition result_count (data_length : nat) (search_query : string)
  : count_text :=
  if (data_length =? 0) && negb (Text.is_empty search_query)
  then no_results_found
  else if data_length =? 1 then one_result
  else if 1 <? data_length then n_results data_length
  else blank.

(** The two effects that write the search box.  An input that has no value
    yet, or an empty one, is falsy. *)
Definition on_featured_animal_click (featured_animal_click : option string)
  (search_query : string) : string :=
  match featured_animal_click with
  | Some animal_name =>
      if Text.is_empty animal_name then search_query else animal_name
  | None => search_query
  end.

Definition on_clear_search (clear_search_is_set : bool) (search_query : string)
  : string :=
  if clear_search_is_set then EmptyString else search_query.

(** The condition of the landing panel: the search box is empty. *)
Definition landing_mode (search_query : string) : bool :=
  Text.is_empty search_query.

(** The leaderboard panel [ratings_summary]: each list with its ranks, or
    the texts shown in their place. *)
Inductive rating_column : Type :=
| no_votes_yet
| rating_list (items : list (nat * string * nat)).   (* rank, animal, votes *)

Inductive summary_panel : Type :=
| no_ratings_yet
| ratings_summary_grid (love_column nope_column : rating_column).

(** [for i, row in frame.iterrows()] on the frame of a query result, whose
    index runs from [first]. *)
Fixpoint rating_items (first : nat) (l : list (string * nat))
  : list (nat * string * nat) :=
  match l with
  | [] => []
  | (animal, n) :: rest => (first + 1, animal, n) :: rating_items (S first) rest
  end.

Definition summary_column (l : list (string * nat)) : rating_column :=
  match l with
  | [] => no_votes_yet
  | _ :: _ => rating_list (rating_items 0 l)
  end.

Definition ratings_summary (summary_data : option summary) : summary_panel :=
  match summary_data with
  | None => no_ratings_yet
  | Some s =>
      ratings_summary_grid (summary_column (love s)) (summary_column (nope s))
  end.

(** ** Definitions used to state the further results *)

Definition is_id_char (c : ascii) : bool :=
  is_alnum c || Ascii.eqb c underscore.

(** Are there two underscores in a row? *)
Fixpoint has_double_underscore (s : list ascii) : bool :=
  match s with
  | c :: rest =>
      match rest with
      | d :: _ =>
          (Ascii.eqb c underscore && Ascii.eqb d underscore)
          || has_double_underscore rest
      | [] => false
      end
  | [] => false
  end.

(** [l] with some elements left out, order kept. *)
Inductive subsequence {A : Type} : list A -> list A -> Prop :=
| subsequence_nil : subsequence [] []
| subsequence_skip x l1 l2 : subsequence l1 l2 -> subsequence l1 (x :: l2)
| subsequence_keep x l1 l2 :
    subsequence l1 l2 -> subsequence (x :: l1) (x :: l2).

Definition total_votes (l : list (string * nat)) : nat :=
  fold_right (fun p acc => snd p + acc) 0 l.

(** What a column of the leaderboard panel shows of a list of the
    summary: the text for no votes when the list is empty, and otherwise its
    entries in order, ranked from one. *)
Definition item_rank (it : nat * string * nat) : nat := fst (fst it).

Definition item_entry (it : nat * string * nat) : string * nat :=
  (snd (fst it), snd it).

Definition column_shows (col : rating_column) (l : list (string * nat)) : Prop :=
  match col with
  | no_votes_yet => l = []
  | rating_list items =>
      l <> []
      /\ map item_rank items = seq 1 (length l)
      /\ map item_entry items = l
  end.

(** What the browser sends on a click on a featured card.  The card's
    [onclick] is a script with the name written between apostrophes; the
    script reads the name back as it was written when the name has no
    apostrophe, no backslash and no line break.  Other names are left
    out. *)
Definition survives_onclick (name : string) : bool :=
  forallb (fun c => negb (Ascii.eqb c "'" || Ascii.eqb c "\"
                          || (nat_of_ascii c <? 32)))
    (Text.chars name).

Definition featured_card_click (name : string) : outcome string :=
  if survives_onclick name then Returns name else NotModelled.


(** * Results *)

(** ** Facts about the matcher *)

Section MatcherFacts.

Import Re.

Lemma lang_seq_inv r1 r2 s :
  lang (Seq r1 r2) s -> exists s1 s2, s = s1 ++ s2 /\ lang r1 s1 /\ lang r2 s2.
Proof. intros H. inversion H; subst. eauto. Qed.

Lemma lang_alt_inv r1 r2 s : lang (Alt r1 r2) s -> lang r1 s \/ lang r2 s.
Proof. intros H. inversion H; subst; auto. Qed.

Lemma nullable_lang r : nullable r = true <-> lang r [].
Proof.
  induction r as [| | a | | neg its | r1 IH1 r2 IH2 | r1 IH1 r2 IH2 | r1 IH1];
    simpl; split; intros H;
    try discriminate; try (now constructor); try (now inversion H).
  - apply andb_true_iff in H as [H1 H2].
    change (@nil ascii) with (@nil ascii ++ []).
    constructor; [now apply IH1 | now apply IH2].
  - apply lang_seq_inv in H as (s1 & s2 & E & H1 & H2).
    symmetry in E. apply app_eq_nil in E as [-> ->].
    apply andb_true_iff. split; [now apply IH1 | now apply IH2].
  - apply orb_true_iff in H as [H | H].
    + apply lang_alt_l. now apply IH1.
    + apply lang_alt_r. now apply IH2.
  - apply orb_true_iff.
    apply lang_alt_inv in H as [H | H]; [left; now apply IH1 | right; now apply IH2].
Qed.

Lemma lang_star_cons_inv r c s :
  lang (Star r) (c :: s) ->
  exists s1 s2, s = s1 ++ s2 /\ lang r (c :: s1) /\ lang (Star r) s2.
Proof.
  intros H.
  remember (Star r) as q eqn:Eq. remember (c :: s) as t eqn:Et.
  revert c s Et.
  induction H as [| | | | | | | r0 | r0 s1 s2 H1 _ H2 IH2]; intros c0 s0 Et;
    try discriminate.
  injection Eq as ->.
  destruct s1 as [| a s1']; simpl in Et.
  - now apply IH2.
  - injection Et as -> <-. exists s1', s2. auto.
Qed.

Lemma lang_single_inv r c s :
  match r with Chr _ | AnyChar | CharSet _ _ => True | _ => False end ->
  lang r (c :: s) <-> accepts_char r c = true /\ s = [].
Proof.
  intros Hr. split.
  - intros H. inversion H; subst; try contradiction; simpl; auto.
    split; [apply Ascii.eqb_refl | reflexivity].
  - intros [Ha ->]. destruct r; try contradiction; simpl in *.
    + apply Ascii.eqb_eq in Ha as ->. constructor.
    + now constructor.
    + now constructor.
Qed.

Local Ltac single_case :=
  rewrite lang_single_inv by exact I; simpl;
  match goal with |- context [if ?b then Eps else Void] => destruct b end;
  split; intros H;
  [ inversion H; subst; split; reflexivity
  | destruct H as [_ ->]; constructor
  | inversion H
  | now destruct H ].

Lemma deriv_lang c r : forall s, lang (deriv c r) s <-> lang r (c :: s).
Proof.
  induction r as [| | a | | neg its | r1 IH1 r2 IH2 | r1 IH1 r2 IH2 | r1 IH1];
    intros s.
  - simpl. split; intros H; inversion H.
  - simpl. split; intros H; inversion H.
  - single_case.
  - single_case.
  - single_case.
  - simpl. split.
    + intros H.
      assert (Hl : forall t, lang (Seq (deriv c r1) r2) t -> lang (Seq r1 r2) (c :: t)).
      { intros t Ht. apply lang_seq_inv in Ht as (s1 & s2 & -> & H1 & H2).
        change (c :: s1 ++ s2) with ((c :: s1) ++ s2).
        constructor; [now apply IH1 | assumption]. }
      destruct (nullable r1) eqn:N.
      * apply lang_alt_inv in H as [H | H]; [now apply Hl |].
        change (c :: s) with ([] ++ c :: s).
        constructor; [now apply nullable_lang | now apply IH2].
      * now apply Hl.
    + intros H. apply lang_seq_inv in H as (s1 & s2 & E & H1 & H2).
      destruct s1 as [| a s1']; simpl in E.
      * subst s2. apply nullable_lang in H1. rewrite H1.
        apply lang_alt_r. now apply IH2.
      * injection E as <- ->.
        assert (Hs : lang (Seq (deriv c r1) r2) (s1' ++ s2)).
        { constructor; [now apply IH1 | assumption]. }
        destruct (nullable r1); [now apply lang_alt_l | assumption].
  - simpl. split; intros H.
    + apply lang_alt_inv in H as [H | H];
        [apply lang_alt_l; now apply IH1 | apply lang_alt_r; now apply IH2].
    + apply lang_alt_inv in H as [H | H];
        [apply lang_alt_l; now apply IH1 | apply lang_alt_r; now apply IH2].
  - simpl. split; intros H.
    + apply lang_seq_inv in H as (s1 & s2 & -> & H1 & H2).
      change (c :: s1 ++ s2) with ((c :: s1) ++ s2).
      apply lang_star_cons; [now apply IH1 | assumption].
    + apply lang_star_cons_inv in H as (s1 & s2 & -> & H1 & H2).
      constructor; [now apply IH1 | assumption].
Qed.

Lemma match_prefix_lang s : forall r,
  match_prefix r s = true <-> exists s1 s2, s = s1 ++ s2 /\ lang r s1.
Proof.
  induction s as [| c s IH]; intros r; simpl.
  - rewrite orb_false_r, nullable_lang. split.
    + intros H. exists [], []. auto.
    + intros (s1 & s2 & E & H). symmetry in E.
      apply app_eq_nil in E as [-> _]. assumption.
  - rewrite orb_true_iff, nullable_lang, IH. split.
    + intros [H | (s1 & s2 & -> & H)].
      * exists [], (c :: s). auto.
      * exists (c :: s1), s2. split; [reflexivity | now apply deriv_lang].
    + intros (s1 & s2 & E & H). destruct s1 as [| a s1']; simpl in E.
      * now left.
      * injection E as <- ->. right. exists s1', s2.
        split; [reflexivity | now apply deriv_lang].
Qed.

End MatcherFacts.

(** ** Patterns without special characters *)

Section PlainPatterns.

Import Re.

Lemma seq_of_rev l : seq_of (rev l) = fold_right Seq Eps l.
Proof.
  unfold seq_of.
  rewrite <- (List.rev_involutive l) at 2.
  now rewrite (fold_left_rev_right Seq (rev l) Eps).
Qed.

Lemma normal_step_plain st c :
  is_special c = false -> normal_step st c = inl (push_item st (Chr c)).
Proof.
  unfold is_special. simpl. intros H.
  repeat (apply orb_false_elim in H as [? H]).
  unfold normal_step.
  repeat match goal with
         | E : Ascii.eqb c _ = false |- _ => rewrite E; clear E
         end.
  reflexivity.
Qed.

Lemma run_plain p : forall st,
  forallb (fun c => negb (is_special c)) p = true ->
  pmode st = Normal -> outer st = [] ->
  run st p
  = Pattern (alt_of {| alts := alts (cur st);
                       items := rev (map Chr p) ++ items (cur st) |}).
Proof.
  induction p as [| c p IH]; intros st Hp Hm Ho; simpl.
  - unfold finish. rewrite Hm, Ho. now destruct (cur st).
  - simpl in Hp. apply andb_true_iff in Hp as [Hc Hp].
    apply negb_true_iff in Hc.
    unfold step. rewrite Hm, (normal_step_plain _ _ Hc).
    rewrite IH by (assumption || reflexivity || exact Ho).
    simpl. now rewrite <- app_assoc.
Qed.

Lemma compile_plain pat :
  plain_text pat = true -> compile pat = Pattern (literal (Text.chars pat)).
Proof.
  intros H. unfold compile. rewrite run_plain by (assumption || reflexivity).
  simpl. rewrite app_nil_r. unfold alt_of. simpl.
  now rewrite seq_of_rev.
Qed.

Lemma lang_literal p s : lang (literal p) s <-> s = p.
Proof.
  revert s. induction p as [| c p IH]; intros s; simpl; split; intros H.
  - now inversion H.
  - subst. constructor.
  - apply lang_seq_inv in H as (s1 & s2 & -> & H1 & H2).
    inversion H1; subst. apply IH in H2 as ->. reflexivity.
  - subst. change (c :: p) with ([c] ++ p).
    constructor; [constructor | now apply IH].
Qed.

Lemma starts_with_app p s :
  Text.starts_with p s = true <-> exists s2, s = p ++ s2.
Proof.
  revert s. induction p as [| a p IH]; intros s; simpl.
  - split; eauto.
  - destruct s as [| b s].
    + split; [discriminate | intros [s2 E]; discriminate].
    + rewrite andb_true_iff, Ascii.eqb_eq, IH. split.
      * intros [-> [s2 ->]]. eauto.
      * intros [s2 E]. injection E as -> ->. eauto.
Qed.

Lemma match_prefix_literal p s :
  match_prefix (literal p) s = Text.starts_with p s.
Proof.
  apply eq_true_iff_eq. rewrite match_prefix_lang, starts_with_app. split.
  - intros (s1 & s2 & -> & H). apply lang_literal in H as ->. eauto.
  - intros [s2 ->]. exists p, s2. split; [reflexivity | now apply lang_literal].
Qed.

Lemma search_literal p s :
  search (literal p) s = Text.contains_at_some_offset p s.
Proof.
  induction s as [| c s IH];
    cbn [search Text.contains_at_some_offset]; rewrite match_prefix_literal;
    [reflexivity | now rewrite IH].
Qed.

End PlainPatterns.

(** Lowercasing never turns a plain character into a special one. *)
Lemma is_special_lower_char c :
  is_special c = false -> is_special (Text.lower_char c) = false.
Proof.
  destruct c as [[] [] [] [] [] [] [] []]; vm_compute; intros H;
    (exact H || reflexivity).
Qed.

Lemma plain_text_lower q : plain_text q = true -> plain_text (Text.lower q) = true.
Proof.
  unfold plain_text, Text.chars. induction q as [| c q IH]; simpl; [easy |].
  rewrite !andb_true_iff, !negb_true_iff. intros [Hc Hq].
  split; [now apply is_special_lower_char | now apply IH].
Qed.

Lemma str_contains_plain q cell :
  plain_text q = true ->
  str_contains (literal (Text.chars (Text.lower q))) false (str_lower cell)
  = spec_cell_matches q cell.
Proof.
  intros _. destruct cell as [v |]; simpl; [| reflexivity].
  apply search_literal.
Qed.

Lemma mask_plain q a :
  plain_text q = true ->
  mask (literal (Text.chars (Text.lower q))) a = spec_row_matches q a.
Proof.
  intros H. unfold mask, spec_row_matches, searched_columns.
  rewrite !(str_contains_plain q _ H). simpl.
  now rewrite orb_false_r, !orb_assoc.
Qed.

Lemma filtered_data_plain data q :
  q <> EmptyString -> plain_text q = true ->
  Text.is_ascii q = true ->
  forallb has_str_accessor (columns_after_name data) = true ->
  ascii_cells data = true ->
  filtered_data data q = Returns (spec_filter data q).
Proof.
  intros Hne Hp Hq Hacc Hcells. unfold filtered_data.
  destruct q as [| c q]; [congruence |]. simpl Text.is_empty. cbv iota.
  rewrite (compile_plain _ (plain_text_lower _ Hp)).
  rewrite Hq, Hacc, Hcells. simpl negb. cbv iota.
  f_equal. unfold spec_filter. apply filter_ext. intros a.
  now apply mask_plain.
Qed.

(** ** The search filter *)

(** C1: the filter keeps exactly the rows with a substring match only while
    the query has no character that [re.compile] reads specially.  On the
    application's own sample rows the query [.] returns all three rows
    although no searched cell contains a dot, and the queries [(], [*] and
    [[] make [filtered_data] raise [re.error] instead of returning rows. *)
Theorem C1_special_characters_are_read_as_a_pattern :
  filtered_data fallback_dataset "." = Returns fallback_dataset
  /\ spec_filter fallback_dataset "." = []
  /\ filtered_data fallback_dataset "(" = Raises (re_error Re.MissingParenthesis)
  /\ filtered_data fallback_dataset "*" = Raises (re_error Re.NothingToRepeat)
  /\ filtered_data fallback_dataset "[" = Raises (re_error Re.UnterminatedSet).
Proof. repeat split; vm_compute; reflexivity. Qed.

(** The example of the specification: [shark] finds the two sharks and the
    seahorse whose fun fact mentions one, in dataset order. *)
Example filtered_data_shark :
  filtered_data example_dataset "Shark" = Returns (firstn 3 example_dataset)
  /\ spec_filter example_dataset "Shark" = firstn 3 example_dataset.
Proof. split; vm_compute; reflexivity. Qed.

(** C2: the empty query gives zero rows, whatever the dataset. *)
Theorem C2_empty_query_returns_no_rows (data : list Animal.t) :
  filtered_data data EmptyString = Returns [].
Proof. reflexivity. Qed.

(** ** Button identifiers *)

Lemma sanitize_id_examples :
  sanitize_id "Sea Otter" = "Sea_Otter"
  /\ sanitize_id "Sea-Otter" = "Sea_Otter"
  /\ sanitize_id "  Clown  fish (Nemo)!" = "Clown_fish_Nemo".
Proof. repeat split; vm_compute; reflexivity. Qed.

(** C9: [sanitize_id] is not injective.  [Sea Otter] and [Sea-Otter] get the
    same identifier, hence the same love and nope button identifiers, and
    when both rows are rendered one observer per identifier is registered,
    the one of the row rendered first. *)
Theorem C9_sanitize_id_not_injective :
  exists a b : string,
    a <> b
    /\ sanitize_id a = sanitize_id b
    /\ love_button_id a = love_button_id b
    /\ nope_button_id a = nope_button_id b
    /\ (let observers :=
          snd (render_cards ∅ [row_named a; row_named b] ∅) in
        observers !! love_button_id b = Some (love_observer a)
        /\ observers !! nope_button_id b = Some (nope_observer a)
        /\ size observers = 2).
Proof.
  exists "Sea Otter", "Sea-Otter".
  split; [discriminate |].
  repeat split; vm_compute; reflexivity.
Qed.

(** ** Loading and featuring *)

(** C6: with [aquarium.csv] absent the loader of
    [src/persistence/motherduck/app.py] carries on with the three sample
    rows and two printed lines, while the loader of [src/python/app.py]
    raises [FileNotFoundError]. *)
Theorem C6_missing_csv (path : string) :
  MotherduckApp.load_aquarium_data path None
  = {| printed := [String.append "Could not find aquarium.csv at " path;
                   "Using fallback sample data"];
       aquarium_data := Returns fallback_dataset |}
  /\ length fallback_dataset = 3
  /\ aquarium_data (PythonApp.load_aquarium_data None) = Raises FileNotFoundError.
Proof. repeat split. Qed.

Lemma isin_In names a :
  isin names a = if in_dec string_dec (Animal.name a) names then true else false.
Proof.
  unfold isin. destruct (in_dec string_dec (Animal.name a) names) as [H | H].
  - apply existsb_exists. exists (Animal.name a). split; [assumption |].
    apply String.eqb_refl.
  - apply not_true_is_false. intros E. apply H.
    apply existsb_exists in E as (x & Hx & E).
    apply String.eqb_eq in E. now subst.
Qed.

(** C10: the featured rows are the rows named in [featured_animal_names]
    when there are at least eight of them, and the first eight rows of the
    dataset otherwise. *)
Theorem C10_featured_animals (data : list Animal.t) :
  featured_animals_df data
  = if 8 <=? length (rows_named featured_animal_names data)
    then rows_named featured_animal_names data
    else firstn 8 data.
Proof.
  unfold featured_animals_df, rows_named.
  rewrite (filter_ext _ _ (isin_In featured_animal_names)).
  rewrite Nat.ltb_antisym. now destruct (8 <=? _).
Qed.

(** ** Grouping and counting *)

Lemma NoDup_snoc {A : Type} (l : list A) (a : A) :
  List.NoDup l -> ~ In a l -> List.NoDup (l ++ [a]).
Proof.
  induction l as [| x l IH]; simpl; intros Hn Hin.
  - constructor; [intros [] | constructor].
  - inversion Hn as [| ? ? Hx Hl]; subst. constructor.
    + rewrite in_app_iff. simpl. intros [H | [H | []]]; [auto | subst; auto].
    + apply IH; auto.
Qed.

Lemma count_in_bump a g b :
  count_in (bump a g) b = count_in g b + (if String.eqb b a then 1 else 0).
Proof.
  induction g as [| [c n] g IH]; simpl.
  - destruct (String.eqb b a); reflexivity.
  - destruct (String.eqb a c) eqn:Eac; simpl.
    + apply String.eqb_eq in Eac as ->.
      destruct (String.eqb b c); lia.
    + destruct (String.eqb b c) eqn:Ebc; [| apply IH].
      apply String.eqb_eq in Ebc as ->.
      rewrite String.eqb_sym, Eac. lia.
Qed.

Lemma map_fst_bump a g :
  map fst (bump a g) = if existsb (String.eqb a) (map fst g)
                       then map fst g else map fst g ++ [a].
Proof.
  induction g as [| [c n] g IH]; simpl; [reflexivity |].
  destruct (String.eqb a c); simpl; [reflexivity |].
  rewrite IH. now destruct (existsb _ _).
Qed.

Lemma bump_wf a g : groups_wf g -> groups_wf (bump a g).
Proof.
  intros [Hn Hp]. split.
  - rewrite map_fst_bump. destruct (existsb _ _) eqn:E; [assumption |].
    apply NoDup_snoc; [assumption |].
    intros Hin. apply not_true_iff_false in E. apply E.
    apply existsb_exists. exists a. split; [assumption | apply String.eqb_refl].
  - clear Hn. induction Hp as [| [c n] g Hc Hg IH]; simpl.
    + repeat constructor.
    + destruct (String.eqb a c); constructor; simpl in *;
        try assumption; lia.
Qed.

Lemma fold_bump_wf rows : forall g,
  groups_wf g ->
  groups_wf (fold_left (fun groups r => bump (animal_name r) groups) rows g).
Proof.
  induction rows as [| r rows IH]; intros g Hg; simpl; [assumption |].
  apply IH. now apply bump_wf.
Qed.

Lemma fold_bump_count rows a : forall g,
  count_in (fold_left (fun groups r => bump (animal_name r) groups) rows g) a
  = count_in g a + occurrences a rows.
Proof.
  unfold occurrences.
  induction rows as [| r rows IH]; intros g; simpl; [lia |].
  rewrite IH, count_in_bump. rewrite (String.eqb_sym a).
  destruct (String.eqb (animal_name r) a); simpl; lia.
Qed.

Lemma group_counts_wf rows : groups_wf (group_counts rows).
Proof.
  apply fold_bump_wf. split; constructor.
Qed.

Lemma count_in_group_counts rows a :
  count_in (group_counts rows) a = occurrences a rows.
Proof. unfold group_counts. now rewrite fold_bump_count. Qed.

Lemma count_in_absent g a : ~ In a (map fst g) -> count_in g a = 0.
Proof.
  induction g as [| [b n] g IH]; simpl; intros H; [reflexivity |].
  destruct (String.eqb a b) eqn:E.
  - apply String.eqb_eq in E. subst. tauto.
  - apply IH. tauto.
Qed.

(** In well-formed groups, membership and [count_in] agree. *)
Lemma in_groups_count g a n :
  groups_wf g -> (In (a, n) g <-> count_in g a = n /\ 0 < n).
Proof.
  intros [Hn Hp]. induction g as [| [b m] g IH]; simpl.
  - split; [tauto | lia].
  - inversion Hn as [| ? ? Hb Hg]; subst.
    inversion Hp as [| ? ? Hm Hp']; subst. simpl in Hm.
    specialize (IH Hg Hp').
    destruct (String.eqb a b) eqn:E.
    + apply String.eqb_eq in E. subst b. split.
      * intros [H | H]; [injection H as ->; auto |].
        exfalso. apply Hb. change a with (fst (a, n)). now apply in_map.
      * intros [-> _]. now left.
    + apply String.eqb_neq in E. rewrite <- IH. split.
      * intros [H | H]; [injection H as -> ->; congruence | assumption].
      * auto.
Qed.

Lemma groups_wf_perm g g' : Permutation g g' -> groups_wf g -> groups_wf g'.
Proof.
  intros Hperm [Hn Hp]. split.
  - eapply Permutation_NoDup; [| exact Hn]. now apply Permutation_map.
  - eapply Permutation_Forall; eassumption.
Qed.

Lemma in_firstn {A : Type} (x : A) k : forall l, In x (firstn k l) -> In x l.
Proof.
  induction k as [| k IH]; intros [| y l]; simpl; try tauto.
  intros [H | H]; [now left | right; now apply IH].
Qed.

Lemma in_skipn {A : Type} (x : A) k : forall l, In x (skipn k l) -> In x l.
Proof.
  induction k as [| k IH]; intros [| y l]; simpl; try tauto.
  intros H. right. now apply IH.
Qed.

Lemma groups_wf_nil : groups_wf [].
Proof. split; constructor. Qed.

Lemma groups_wf_firstn k : forall g, groups_wf g -> groups_wf (firstn k g).
Proof.
  induction k as [| k IH]; intros g Hwf; [apply groups_wf_nil |].
  destruct g as [| p g]; [apply groups_wf_nil |].
  destruct Hwf as [Hn Hp]. simpl in *.
  inversion Hn as [| ? ? Hx Hg]; subst.
  inversion Hp as [| ? ? Hp1 Hp2]; subst.
  destruct (IH g (conj Hg Hp2)) as [Hn' Hp'].
  split; simpl; constructor; try assumption.
  intros Hin. apply Hx. apply in_map_iff in Hin as (q & Eq & Hq).
  apply in_map_iff. exists q. split; [assumption |].
  now apply in_firstn in Hq.
Qed.

(** In a list sorted by decreasing count, nothing cut off by [firstn] counts
    more than something kept. *)
Lemma sorted_firstn_skipn k : forall l x y,
  StronglySorted count_desc l ->
  In x (firstn k l) -> In y (skipn k l) -> snd y <= snd x.
Proof.
  induction k as [| k IH]; intros [| z l] x y Hs Hx Hy; simpl in *;
    try contradiction.
  apply StronglySorted_inv in Hs as [Hs Hz].
  destruct Hx as [-> | Hx].
  - rewrite List.Forall_forall in Hz. apply Hz. now apply in_skipn in Hy.
  - now apply (IH l).
Qed.

Lemma firstn_all_short {A : Type} k (l : list A) : length l <= k -> firstn k l = l.
Proof. intros H. now apply firstn_all2. Qed.

Lemma sorted_firstn k : forall l,
  StronglySorted count_desc l -> StronglySorted count_desc (firstn k l).
Proof.
  induction k as [| k IH]; intros [| z l] Hs; simpl; try constructor.
  - apply IH. now apply StronglySorted_inv in Hs.
  - apply StronglySorted_inv in Hs as [_ Hz].
    rewrite List.Forall_forall in *. intros x Hx.
    apply Hz. now apply in_firstn in Hx.
Qed.

Lemma listed_in l a : listed l a = true <-> exists n, In (a, n) l.
Proof.
  unfold listed. rewrite existsb_exists. split.
  - intros ([b n] & Hin & E). simpl in E. apply String.eqb_eq in E.
    subst. eauto.
  - intros [n Hin]. exists (a, n). split; [assumption | apply String.eqb_refl].
Qed.

Lemma count_in_unlisted l a : listed l a = false -> count_in l a = 0.
Proof.
  intros H. apply count_in_absent. intros Hin.
  apply in_map_iff in Hin as ([b n] & E & Hin). simpl in E. subst b.
  apply not_true_iff_false in H. apply H. apply listed_in. eauto.
Qed.

(** *** The stable sort is one of the admissible orders *)

Lemma insert_desc_perm x l : Permutation (insert_desc x l) (x :: l).
Proof.
  induction l as [| y l IH]; simpl; [reflexivity |].
  destruct (snd x <? snd y); [| reflexivity].
  rewrite IH. apply perm_swap.
Qed.

Lemma insert_desc_sorted x l :
  StronglySorted count_desc l -> StronglySorted count_desc (insert_desc x l).
Proof.
  induction l as [| y l IH]; simpl; intros Hs.
  - repeat constructor.
  - apply StronglySorted_inv in Hs as [Hs Hy].
    destruct (snd x <? snd y) eqn:E.
    + apply Nat.ltb_lt in E. constructor; [now apply IH |].
      eapply Permutation_Forall; [symmetry; apply insert_desc_perm |].
      constructor; [unfold count_desc; lia | assumption].
    + apply Nat.ltb_ge in E. constructor.
      * now constructor.
      * constructor; [exact E |].
        eapply List.Forall_impl; [| exact Hy].
        unfold count_desc. intros z Hz. lia.
Qed.

Lemma order_by_n_desc_perm l : Permutation (order_by_n_desc l) l.
Proof.
  induction l as [| x l IH]; simpl; [reflexivity |].
  rewrite insert_desc_perm. now constructor.
Qed.

Lemma order_by_n_desc_sorted l : StronglySorted count_desc (order_by_n_desc l).
Proof.
  induction l as [| x l IH]; simpl; [constructor |].
  now apply insert_desc_sorted.
Qed.

Lemma top10_admissible rows value : sql_top10 rows value (top10 rows value).
Proof.
  exists (order_by_n_desc (group_counts (rows_with_rating value rows))).
  split; [apply order_by_n_desc_perm |].
  split; [apply order_by_n_desc_sorted | reflexivity].
Qed.

(** [get_ratings_summary] always answers, and its answer is admissible. *)
Lemma get_ratings_summary_admissible token e w :
  ratings_summary_answer token e w (get_ratings_summary token e w).
Proof.
  unfold get_ratings_summary.
  destruct (get_duckdb_connection token e) as [b |] eqn:Ec;
    [| now apply answer_no_connection].
  destruct (ratings (db_of b w)) as [[| r rows] |] eqn:Er.
  - now apply (answer_no_rows _ _ _ b).
  - apply (answer_rows _ _ _ b (r :: rows)); try assumption;
      [discriminate | apply top10_admissible | apply top10_admissible].
  - now apply (answer_no_table _ _ _ b).
Qed.

(** *** What every admissible top ten satisfies *)

Lemma sql_top10_facts rows value out :
  sql_top10 rows value out -> is_top_ten rows value out.
Proof.
  intros (full & Hperm & Hsorted & ->).
  set (groups := group_counts (rows_with_rating value rows)) in *.
  assert (Hwf : groups_wf full).
  { apply (groups_wf_perm groups); [now symmetry | apply group_counts_wf]. }
  assert (Hin : forall a n, In (a, n) full <-> n = stored_count rows value a /\ 0 < n).
  { intros a n. rewrite (Permutation_in' (eq_refl (a, n)) Hperm).
    rewrite (in_groups_count groups a n (group_counts_wf _)).
    unfold groups. rewrite count_in_group_counts.
    unfold stored_count, occurrences. intuition congruence. }
  unfold is_top_ten. repeat split.
  - apply firstn_le_length.
  - now apply sorted_firstn.
  - now apply groups_wf_firstn.
  - apply in_firstn, Hin in H. tauto.
  - apply in_firstn, Hin in H. tauto.
  - intros a b m Ha Hb.
    destruct (stored_count rows value a) as [| c] eqn:Ec; [lia |].
    assert (Hfull : In (a, S c) full) by (apply Hin; lia).
    rewrite <- (firstn_skipn 10 full) in Hfull.
    apply in_app_or in Hfull as [Hfst | Hskip].
    + exfalso. apply not_true_iff_false in Ha. apply Ha.
      apply listed_in. eauto.
    + apply (sorted_firstn_skipn 10 full (b, m) (a, S c)); assumption.
  - intros Hlen a Ha. apply listed_in. exists (stored_count rows value a).
    rewrite length_firstn in Hlen.
    rewrite firstn_all2 by lia.
    apply Hin. auto.
Qed.

(** An animal with fewer votes than each of ten others is not listed. *)
Lemma forallb_false_exists {A : Type} (f : A -> bool) l :
  forallb f l = false -> exists x, In x l /\ f x = false.
Proof.
  induction l as [| y l IH]; simpl; [discriminate |].
  destruct (f y) eqn:E; simpl.
  - intros H. destruct (IH H) as (x & Hx & Hf). eauto.
  - eauto.
Qed.

Lemma outvoted_not_listed rows value out a names :
  is_top_ten rows value out ->
  List.NoDup (a :: names) -> length names = 10 ->
  (forall b, In b names ->
     stored_count rows value a < stored_count rows value b) ->
  listed out a = false.
Proof.
  intros (Hlen & _ & Hnd & Hin & Hcut & _) Hnames Hten Hless.
  apply not_true_is_false. intros Ha.
  apply listed_in in Ha as [n Ha].
  destruct (Hin _ _ Ha) as [-> Hpos].
  destruct (forallb (listed out) names) eqn:F.
  - assert (Hincl : incl (a :: names) (map fst out)).
    { intros b [<- | Hb].
      - change a with (fst (a, stored_count rows value a)). now apply in_map.
      - rewrite List.forallb_forall in F. specialize (F b Hb).
        apply listed_in in F as [m Hm].
        change b with (fst (b, m)). now apply in_map. }
    apply (NoDup_incl_length Hnames) in Hincl.
    simpl in Hincl. rewrite length_map in Hincl. lia.
  - apply forallb_false_exists in F as (b & Hb & Hout).
    specialize (Hcut b a _ Hout Ha). specialize (Hless b Hb). lia.
Qed.

(** ** The rating store *)

Lemma db_of_set_db b d w : db_of b (set_db b d w) = d.
Proof. now destruct b. Qed.

Lemma set_db_set_db b d d' w : set_db b d (set_db b d' w) = set_db b d w.
Proof. now destruct b. Qed.

Lemma set_db_db_of b w : set_db b (db_of b w) w = w.
Proof. now destruct b, w. Qed.

Lemma rows_of_other_db b b' d w :
  b <> b' -> db_of b' (set_db b d w) = db_of b' w.
Proof. destruct b, b'; simpl; congruence. Qed.

(** What both statements of [initialize_ratings_table] leave behind. *)
Lemma initialize_ratings_table_connected token e w b :
  get_duckdb_connection token e = Some b ->
  initialize_ratings_table token e w
  = (set_db b (table_of (rows_of (db_of b w))) w, true).
Proof.
  intros Hc. unfold initialize_ratings_table. rewrite Hc.
  unfold create_index_if_not_exists, create_table_if_not_exists, rows_of,
    table_of. simpl.
  now destruct (ratings (db_of b w)).
Qed.

(** C8: a second [initialize_ratings_table] changes nothing and returns what
    the first returned; whatever the connections of the two calls, the rows
    of each database stay as they were and the backup file is untouched. *)
Theorem C8_initialize_ratings_table_idempotent token e w :
  initialize_ratings_table token e (fst (initialize_ratings_table token e w))
  = initialize_ratings_table token e w
  /\ (forall e2 b,
        rows_of (db_of b (fst (initialize_ratings_table token e2
                                 (fst (initialize_ratings_table token e w)))))
        = rows_of (db_of b w))
  /\ (forall e2,
        ratings_backup (fst (initialize_ratings_table token e2
                               (fst (initialize_ratings_table token e w))))
        = ratings_backup w).
Proof.
  assert (Hrows : forall e1 w1 b,
             rows_of (db_of b (fst (initialize_ratings_table token e1 w1)))
             = rows_of (db_of b w1)).
  { intros e1 w1 b.
    destruct (get_duckdb_connection token e1) as [b1 |] eqn:Hc.
    - rewrite (initialize_ratings_table_connected _ _ _ _ Hc). simpl.
      destruct b1, b; reflexivity.
    - unfold initialize_ratings_table. now rewrite Hc. }
  assert (Hfile : forall e1 w1,
             ratings_backup (fst (initialize_ratings_table token e1 w1))
             = ratings_backup w1).
  { intros e1 w1.
    destruct (get_duckdb_connection token e1) as [b1 |] eqn:Hc.
    - rewrite (initialize_ratings_table_connected _ _ _ _ Hc).
      now destruct b1.
    - unfold initialize_ratings_table. now rewrite Hc. }
  split; [| split].
  - destruct (get_duckdb_connection token e) as [b |] eqn:Hc.
    + rewrite !(initialize_ratings_table_connected _ _ _ _ Hc). simpl.
      now rewrite db_of_set_db, set_db_set_db.
    + unfold initialize_ratings_table. now rewrite Hc.
  - intros e2 b. now rewrite !Hrows.
  - intros e2. now rewrite !Hfile.
Qed.

(** *** The summary *)

(** C7, amended: every answer of [get_ratings_summary] is the sentinel
    exactly when no connection can be opened or the table reached is absent
    or empty; any other answer holds, for each of the two rating values, the
    top ten of that value. *)
Theorem C7_summary_is_top_ten_or_sentinel token e w res :
  ratings_summary_answer token e w res ->
  (res = None <->
     get_duckdb_connection token e = None
     \/ exists b, get_duckdb_connection token e = Some b
                  /\ no_ratings (db_of b w) = true)
  /\ (forall s, res = Some s ->
        exists b rows,
          get_duckdb_connection token e = Some b
          /\ ratings (db_of b w) = Some rows
          /\ is_top_ten rows love_rating (love s)
          /\ is_top_ten rows nope_rating (nope s)).
Proof.
  intros H.
  destruct H as [Hc | b Hc Hr | b Hc Hr | b rows lv np Hc Hr Hne Hl Hn].
  - split; [tauto | discriminate].
  - split; [| discriminate].
    split; [| reflexivity]. intros _. right. exists b.
    unfold no_ratings. now rewrite Hr.
  - split; [| discriminate].
    split; [| reflexivity]. intros _. right. exists b.
    unfold no_ratings. now rewrite Hr.
  - split.
    + split; [discriminate |].
      intros [Hnone | (b' & Hc' & Hno)]; [congruence |].
      assert (b' = b) by congruence. subst b'.
      unfold no_ratings in Hno. rewrite Hr in Hno.
      destruct rows; [congruence | discriminate].
    + intros s Es. injection Es as <-. exists b, rows. simpl.
      split; [assumption |]. split; [assumption |].
      split; now apply sql_top10_facts.
Qed.

Lemma C7_summary_is_top_ten_or_sentinel_witness :
  let res := get_ratings_summary EmptyString online one_vote_world in
  res = Some {| love := [("Shark", 1)]; nope := [] |}
  /\ (forall s, res = Some s ->
        exists b rows,
          get_duckdb_connection EmptyString online = Some b
          /\ ratings (db_of b one_vote_world) = Some rows
          /\ is_top_ten rows love_rating (love s)
          /\ is_top_ten rows nope_rating (nope s)).
Proof.
  intros res. split; [reflexivity |].
  exact (proj2 (C7_summary_is_top_ten_or_sentinel EmptyString online
                  one_vote_world res
                  (get_ratings_summary_admissible _ _ _))).
Defined.

(** C7 as stated fails: with no connection the sentinel comes back although
    the table of either database holds a vote. *)
Lemma C7_sentinel_with_votes_on_record :
  get_ratings_summary EmptyString offline one_vote_world = None
  /\ (forall res,
        ratings_summary_answer EmptyString offline one_vote_world res ->
        res = None)
  /\ (forall b, no_ratings (db_of b one_vote_world) = false).
Proof.
  split; [reflexivity |]. split.
  - intros res H. inversion H; subst; try reflexivity; discriminate.
  - intros []; reflexivity.
Qed.

(** *** Saving, then summarising *)

Lemma rows_with_rating_app value rows rows' :
  rows_with_rating value (rows ++ rows')
  = rows_with_rating value rows ++ rows_with_rating value rows'.
Proof. unfold rows_with_rating. apply List.filter_app. Qed.

Lemma stored_count_snoc rows value a r :
  stored_count (rows ++ [r]) value a
  = stored_count rows value a
    + (if String.eqb (rating r) value && String.eqb (animal_name r) a
       then 1 else 0).
Proof.
  unfold stored_count. rewrite rows_with_rating_app, List.filter_app, List.length_app.
  f_equal. unfold rows_with_rating. simpl.
  destruct (String.eqb (rating r) value); simpl; [| reflexivity].
  now destruct (String.eqb (animal_name r) a).
Qed.

Lemma summary_list_top_ten token e w res value :
  value = love_rating \/ value = nope_rating ->
  ratings_summary_answer token e w res ->
  res = None /\ summary_list res value = []
  \/ is_top_ten (connected_rows token e w) value (summary_list res value).
Proof.
  intros Hv H. unfold connected_rows, rows_of.
  destruct H as [Hc | b Hc Hr | b Hc Hr | b rows lv np Hc Hr Hne Hl Hn];
    try (left; split; reflexivity).
  right. rewrite Hc, Hr.
  destruct Hv as [-> | ->]; simpl; now apply sql_top10_facts.
Qed.

Lemma count_in_listed rows value out a :
  is_top_ten rows value out -> listed out a = true ->
  count_in out a = stored_count rows value a.
Proof.
  intros (_ & _ & Hnd & Hin & _) Ha.
  apply listed_in in Ha as [n Ha].
  destruct (Hin _ _ Ha) as [-> Hpos].
  assert (Hwf : groups_wf out).
  { split; [assumption |]. apply List.Forall_forall. intros [b m] Hb.
    now apply Hin in Hb. }
  now apply (in_groups_count out a _ Hwf) in Ha.
Qed.

Lemma save_rating_to_duckdb_success token e w a value own w' :
  save_rating_to_duckdb token e w a value own = (w', true) ->
  exists b rows,
    get_duckdb_connection token e = Some b
    /\ ratings (db_of b w) = Some rows
    /\ ratings (db_of b w')
       = Some (rows ++ [{| id := fresh_uuid e; timestamp := now e;
                           session_id := own; animal_name := a;
                           rating := value |}]).
Proof.
  unfold save_rating_to_duckdb.
  destruct (get_duckdb_connection token e) as [b |]; [| discriminate].
  destruct (ratings (db_of b w)) as [rows |] eqn:Hr; [| discriminate].
  intros H. injection H as <-. exists b, rows.
  now rewrite db_of_set_db.
Qed.

Lemma answer_with_rows token e w b rows res value :
  value = love_rating \/ value = nope_rating ->
  get_duckdb_connection token e = Some b ->
  ratings (db_of b w) = Some rows -> rows <> [] ->
  ratings_summary_answer token e w res ->
  is_top_ten rows value (summary_list res value).
Proof.
  intros Hv Hc Hr Hne H.
  destruct H as [Hc' | b' Hc' Hr' | b' Hc' Hr' | b' rows' lv np Hc' Hr' _ Hl Hn];
    try congruence.
  assert (b' = b) by congruence. subst b'.
  assert (rows' = rows) by congruence. subst rows'.
  destruct Hv as [-> | ->]; simpl; now apply sql_top10_facts.
Qed.

(** C3, amended: after a successful save the stored events of the pair are
    one more; a summary read from the same database shows that number
    whenever it lists the animal, so the count shown grows by exactly one
    when the animal is listed after the save and was listed before or had no
    such rating yet; and the animal is listed whenever the list of its
    rating value has fewer than ten entries. *)
Theorem C3_saved_rating_shows_in_next_summary
  token e_prev e e_next w w' a value own res res' :
  value = love_rating \/ value = nope_rating ->
  save_rating_to_duckdb token e w a value own = (w', true) ->
  get_duckdb_connection token e_prev = get_duckdb_connection token e ->
  get_duckdb_connection token e_next = get_duckdb_connection token e ->
  ratings_summary_answer token e_prev w res ->
  ratings_summary_answer token e_next w' res' ->
  let before := stored_count (connected_rows token e w) value a in
  stored_count (connected_rows token e w') value a = before + 1
  /\ (listed (summary_list res' value) a = true ->
      summary_count res' value a = before + 1)
  /\ (listed (summary_list res' value) a = true ->
      listed (summary_list res value) a = true \/ before = 0 ->
      summary_count res' value a = summary_count res value a + 1)
  /\ (length (summary_list res' value) < 10 ->
      listed (summary_list res' value) a = true).
Proof.
  intros Hv Hsave Hprev Hnext Hres Hres' before.
  destruct (save_rating_to_duckdb_success _ _ _ _ _ _ _ Hsave)
    as (b & rows & Hc & Hr & Hr').
  set (row := {| id := fresh_uuid e; timestamp := now e; session_id := own;
                 animal_name := a; rating := value |}) in *.
  assert (Ebefore : before = stored_count rows value a).
  { unfold before, connected_rows, rows_of. now rewrite Hc, Hr. }
  assert (Eafter : stored_count (connected_rows token e w') value a
                   = before + 1).
  { unfold connected_rows, rows_of. rewrite Hc, Hr', Ebefore.
    rewrite stored_count_snoc. simpl. now rewrite !String.eqb_refl. }
  assert (Htop' : is_top_ten (rows ++ [row]) value (summary_list res' value)).
  { apply (answer_with_rows token e_next w' b); try assumption.
    - congruence.
    - now destruct rows. }
  assert (Hafter : stored_count (rows ++ [row]) value a = before + 1).
  { rewrite <- Eafter. unfold connected_rows, rows_of. now rewrite Hc, Hr'. }
  assert (Hshown' : listed (summary_list res' value) a = true ->
                    summary_count res' value a = before + 1).
  { intros Hl. unfold summary_count.
    now rewrite (count_in_listed _ _ _ _ Htop' Hl). }
  split; [exact Eafter |]. split; [exact Hshown' |]. split.
  - intros Hl' Hor. rewrite (Hshown' Hl'). f_equal.
    destruct (summary_list_top_ten token e_prev w res value Hv Hres)
      as [[-> Hnil] | Htop].
    + destruct Hor as [Hl | H0]; [| now rewrite H0].
      simpl in Hl. discriminate.
    + assert (Erows : connected_rows token e_prev w = rows).
      { unfold connected_rows, rows_of. now rewrite Hprev, Hc, Hr. }
      rewrite Erows in Htop. unfold summary_count.
      destruct (listed (summary_list res value) a) eqn:Hl.
      * now rewrite (count_in_listed _ _ _ _ Htop Hl).
      * destruct Hor as [? | H0]; [discriminate |].
        now rewrite (count_in_unlisted _ _ Hl).
  - intros Hlen.
    destruct Htop' as (_ & _ & _ & _ & _ & Hroom).
    apply (Hroom Hlen). lia.
Qed.

Lemma C3_saved_rating_shows_in_next_summary_witness :
  let saved :=
    save_rating_to_duckdb EmptyString online empty_table_world
      "Shark" love_rating "session_a" in
  saved = (fst saved, true)
  /\ summary_count (get_ratings_summary EmptyString online (fst saved))
       love_rating "Shark"
     = summary_count (get_ratings_summary EmptyString online empty_table_world)
         love_rating "Shark" + 1.
Proof.
  intros saved. split; [reflexivity |].
  refine (proj1 (proj2 (proj2
    (C3_saved_rating_shows_in_next_summary EmptyString online online online
       empty_table_world (fst saved) "Shark" love_rating "session_a"
       (get_ratings_summary EmptyString online empty_table_world)
       (get_ratings_summary EmptyString online (fst saved))
       (or_introl eq_refl) eq_refl eq_refl eq_refl
       (get_ratings_summary_admissible _ _ _)
       (get_ratings_summary_admissible _ _ _)))) _ _).
  - reflexivity.
  - right. reflexivity.
Defined.

(** C3 as stated fails: an eleventh animal, saved with one vote behind ten
    animals with two votes each, is shown neither before nor after. *)
Lemma C3_eleventh_animal_not_shown :
  let saved :=
    save_rating_to_duckdb EmptyString online crowded_world
      "Seahorse" love_rating "session_a" in
  snd saved = true
  /\ forall res res',
       ratings_summary_answer EmptyString online crowded_world res ->
       ratings_summary_answer EmptyString online (fst saved) res' ->
       summary_count res love_rating "Seahorse" = 0
       /\ summary_count res' love_rating "Seahorse" = 0
       /\ summary_count res' love_rating "Seahorse"
          <> summary_count res love_rating "Seahorse" + 1.
Proof.
  intros saved. split; [reflexivity |].
  intros res res' Hres Hres'.
  assert (Hnames : List.NoDup ("Seahorse" :: ten_animals)).
  { unfold ten_animals.
    repeat (constructor; [simpl; intuition discriminate |]). constructor. }
  assert (H0 : summary_count res love_rating "Seahorse" = 0).
  { apply count_in_unlisted.
    eapply (outvoted_not_listed _ love_rating _ _ ten_animals);
      [| exact Hnames | reflexivity |].
    - apply (answer_with_rows EmptyString online crowded_world local);
        [now left | reflexivity | reflexivity | discriminate | exact Hres].
    - intros b Hb. simpl in Hb.
      repeat (destruct Hb as [<- | Hb]; [vm_compute; lia |]).
      contradiction. }
  assert (H1 : summary_count res' love_rating "Seahorse" = 0).
  { apply count_in_unlisted.
    eapply (outvoted_not_listed _ love_rating _ _ ten_animals);
      [| exact Hnames | reflexivity |].
    - apply (answer_with_rows EmptyString online (fst saved) local);
        [now left | reflexivity | reflexivity | discriminate | exact Hres'].
    - intros b Hb. simpl in Hb.
      repeat (destruct Hb as [<- | Hb]; [vm_compute; lia |]).
      contradiction. }
  rewrite H0, H1. repeat split. discriminate.
Qed.

(** ** The fallback file *)

Lemma save_rating_fallback token e w a value own :
  snd (save_rating_to_duckdb token e w a value own) = false ->
  save_rating token e w a value own
  = {| motherduck_db := motherduck_db w; local_db := local_db w;
       ratings_backup :=
         append_backup (ratings_backup w) (backup_record e a value own) |}.
Proof.
  unfold save_rating, save_rating_to_duckdb.
  destruct (get_duckdb_connection token e) as [b |]; [| reflexivity].
  destruct (ratings (db_of b w)); [discriminate | reflexivity].
Qed.

Lemma save_rating_stored token e w a value own :
  snd (save_rating_to_duckdb token e w a value own) = true ->
  save_rating token e w a value own
  = fst (save_rating_to_duckdb token e w a value own).
Proof.
  unfold save_rating.
  destruct (save_rating_to_duckdb token e w a value own) as [w' ok].
  simpl. now intros ->.
Qed.

(** C4: a handled click on a rating control of an animal not yet rated shows
    one notification on either path; when the database write fails the
    backup file gains exactly one record with the four fields in order,
    below a header when the file did not exist, and the databases are left
    alone; when it succeeds the backup file is not touched. *)
Theorem C4_fallback_appends_one_record token o n e w s :
  rated_animals s !! observed_animal o = None ->
  let record := [now e; sid s; observed_animal o; rating_type o] in
  let after := rating_handler token o (Some (S n)) e w s in
  notifications (snd after)
  = notifications s ++ [notification_for (key o) (observed_animal o)]
  /\ (if snd (save_rating_to_duckdb token e w
               (observed_animal o) (rating_type o) (sid s))
      then ratings_backup (fst after) = ratings_backup w
      else ratings_backup (fst after)
           = match ratings_backup w with
             | None => Some [backup_header; record]
             | Some records => Some (records ++ [record])
             end
           /\ motherduck_db (fst after) = motherduck_db w
           /\ local_db (fst after) = local_db w).
Proof.
  intros Hnew record after. unfold after, rating_handler. rewrite Hnew.
  simpl. split; [reflexivity |].
  destruct (snd (save_rating_to_duckdb token e w (observed_animal o)
                   (rating_type o) (sid s))) eqn:Hok.
  - rewrite (save_rating_stored _ _ _ _ _ _ Hok).
    revert Hok. unfold save_rating_to_duckdb.
    destruct (get_duckdb_connection token e) as [b |]; [| discriminate].
    destruct (ratings (db_of b w)); [| discriminate].
    now destruct b.
  - rewrite (save_rating_fallback _ _ _ _ _ _ Hok). simpl.
    now destruct (ratings_backup w).
Qed.

Lemma C4_fallback_appends_one_record_witness :
  let after :=
    rating_handler EmptyString (love_observer "Shark") (Some 1) offline
      one_vote_world (new_session "session_a") in
  ratings_backup (fst after)
  = Some [ ["timestamp"; "session_id"; "animal_name"; "rating"];
           ["2025-01-01T12:00:00"; "session_a"; "Shark"; "Literally in love"] ]
  /\ notifications (snd after) = [recorded_your_love "Shark"].
Proof.
  intros after.
  destruct (C4_fallback_appends_one_record EmptyString (love_observer "Shark")
              0 offline one_vote_world (new_session "session_a") eq_refl)
    as [Hnote Hfile].
  split; [exact (proj1 Hfile) | exact Hnote].
Defined.

(** ** One rating per session and animal *)

Lemma love_button_id_inj a b :
  love_button_id a = love_button_id b -> sanitize_id a = sanitize_id b.
Proof.
  unfold love_button_id. generalize (sanitize_id a), (sanitize_id b).
  intros x y H. now injection H.
Qed.

Lemma nope_button_id_inj a b :
  nope_button_id a = nope_button_id b -> sanitize_id a = sanitize_id b.
Proof.
  unfold nope_button_id. generalize (sanitize_id a), (sanitize_id b).
  intros x y H. now injection H.
Qed.

Lemma love_nope_distinct a b : love_button_id a <> nope_button_id b.
Proof.
  unfold love_button_id, nope_button_id.
  generalize (sanitize_id a), (sanitize_id b). intros x y H. discriminate H.
Qed.

Lemma same_sanitize_id a b :
  sanitize_id a = sanitize_id b ->
  love_button_id a = love_button_id b /\ nope_button_id a = nope_button_id b.
Proof. unfold love_button_id, nope_button_id. now intros ->. Qed.

(** Two button identifiers differ: by their prefix, or by the sanitized
    names [E] tells apart. *)
Local Ltac ids_differ E :=
  let H := fresh in
  intros H;
  first [ exact (love_nope_distinct _ _ H)
        | exact (love_nope_distinct _ _ (eq_sym H))
        | apply E; first [ exact (love_button_id_inj _ _ H)
                         | exact (love_button_id_inj _ _ (eq_sym H))
                         | exact (nope_button_id_inj _ _ H)
                         | exact (nope_button_id_inj _ _ (eq_sym H)) ] ].

(** Registering the two observers of a row. *)
Lemma register_pair_ok name observers :
  observers_ok observers ->
  observers_ok (register (nope_observer name)
                  (register (love_observer name) observers)).
Proof.
  intros [Hmade Hpair].
  specialize (Hpair name) as Hname.
  unfold register at 2. simpl.
  destruct (observers !! love_button_id name) as [o1 |] eqn:Hl.
  - unfold register. simpl.
    destruct (observers !! nope_button_id name) as [o2 |] eqn:Hn;
      [now split | contradiction].
  - destruct (observers !! nope_button_id name) as [o2 |] eqn:Hn;
      [contradiction |].
    unfold register. simpl.
    rewrite lookup_insert_ne by apply love_nope_distinct.
    rewrite Hn. split.
    + intros bid o Hbid.
      destruct (decide (bid = nope_button_id name)) as [-> | Hne1].
      { rewrite lookup_insert_eq in Hbid. injection Hbid as <-. simpl. auto. }
      rewrite lookup_insert_ne in Hbid by congruence.
      destruct (decide (bid = love_button_id name)) as [-> | Hne2].
      { rewrite lookup_insert_eq in Hbid. injection Hbid as <-. simpl. auto. }
      rewrite lookup_insert_ne in Hbid by congruence.
      now apply Hmade.
    + intros other.
      destruct (string_dec (sanitize_id other) (sanitize_id name)) as [E | E].
      * destruct (same_sanitize_id _ _ E) as [E1 E2]. rewrite E1, E2.
        rewrite lookup_insert_ne by (symmetry; apply love_nope_distinct).
        now rewrite !lookup_insert_eq.
      * rewrite !lookup_insert_ne by ids_differ E.
        apply Hpair.
Qed.

Lemma register_keeps o observers bid o' :
  observers !! bid = Some o' -> register o observers !! bid = Some o'.
Proof.
  intros H. unfold register.
  destruct (observers !! observed_button o) eqn:E; [assumption |].
  rewrite lookup_insert_ne; [assumption | congruence].
Qed.

Lemma render_cards_ok current data : forall observers,
  observers_ok observers ->
  observers_ok (snd (render_cards current data observers))
  /\ (forall bid o, observers !! bid = Some o ->
        snd (render_cards current data observers) !! bid = Some o).
Proof.
  induction data as [| animal rest IH]; intros observers Hok; simpl.
  - auto.
  - destruct (IH _ (register_pair_ok (Animal.name animal) _ Hok)) as [Hok' Hkeep].
    destruct (render_cards current rest _) as [cards observers'] eqn:E.
    simpl in *. split; [assumption |].
    intros bid o H. apply Hkeep. now do 2 apply register_keeps.
Qed.

Lemma render_cards_rating current data : forall observers c,
  In c (fst (render_cards current data observers)) ->
  card_rating c = rating_part current (card_name c).
Proof.
  induction data as [| animal rest IH]; intros observers c; simpl.
  - contradiction.
  - specialize (IH (register (nope_observer (Animal.name animal))
                      (register (love_observer (Animal.name animal)) observers)) c).
    destruct (render_cards current rest _) as [cards observers'].
    simpl in *. intros [<- | H]; [reflexivity | now apply IH].
Qed.

Lemma new_session_ok own : session_ok own (new_session own).
Proof.
  split; [reflexivity |]. split.
  - split.
    + intros bid o H. simpl in H. now rewrite lookup_empty in H.
    + intros name. simpl. now rewrite !lookup_empty.
  - intros a k H. simpl in H. now rewrite lookup_empty in H.
Qed.

Lemma rating_handler_cases token o v e w s :
  rating_handler token o v e w s = (w, s)
  \/ (rated_animals s !! observed_animal o = None
      /\ rating_handler token o v e w s
         = (save_rating token e w (observed_animal o) (rating_type o) (sid s),
            {| sid := sid s;
               rated_animals := <[observed_animal o := key o]> (rated_animals s);
               ratings_trigger := ratings_trigger s + 1;
               button_observers := button_observers s;
               notifications :=
                 notifications s
                 ++ [notification_for (key o) (observed_animal o)] |})).
Proof.
  unfold rating_handler. destruct v as [[| n] |]; auto.
  destruct (rated_animals s !! observed_animal o) eqn:E; auto.
Qed.

(** A click for an animal already rated changes nothing. *)
Lemma rating_handler_rated token o v e w s :
  is_Some (rated_animals s !! observed_animal o) ->
  rating_handler token o v e w s = (w, s).
Proof.
  intros [k Hk]. unfold rating_handler. rewrite Hk.
  now destruct v as [[| n] |].
Qed.

Lemma step_session_ok token own w s ev :
  session_ok own s -> session_ok own (snd (step token (w, s) ev)).
Proof.
  intros Hs. pose proof Hs as (Hsid & Hobs & Hrated).
  destruct ev as [data | bid v e | o a r e]; simpl.
  - unfold search_results.
    destruct (render_cards_ok (rated_animals s) data _ Hobs) as [Hok Hkeep].
    destruct (render_cards (rated_animals s) data (button_observers s))
      as [cards observers]. simpl in *.
    split; [assumption |]. split; [assumption |].
    intros a k Hk. destruct (Hrated a k Hk) as (o & Ho & Ha). eauto.
  - destruct (button_observers s !! bid) as [o |] eqn:Hbid;
      [| exact Hs].
    destruct (rating_handler_cases token o v e w s) as [-> | [Hnew ->]];
      [exact Hs |].
    cbn [snd]. split; [assumption |]. split; [assumption |].
    cbn [rated_animals button_observers]. intros a k Hk.
    destruct (decide (observed_animal o = a)) as [<- | Hne].
    + destruct Hobs as [Hmade Hpair].
      destruct (Hmade bid o Hbid) as [Hbutton [Ho | Ho]].
      * exists o. split; [| reflexivity].
        rewrite Ho in Hbutton. simpl in Hbutton. now rewrite Hbutton.
      * specialize (Hpair (observed_animal o)).
        rewrite Ho in Hbutton. simpl in Hbutton.
        rewrite Hbutton, Hbid in Hpair.
        destruct (button_observers s !! love_button_id (observed_animal o))
          as [o1 |] eqn:Hlove; [| contradiction].
        exists o1. split; [reflexivity | exact Hpair].
    + rewrite lookup_insert_ne in Hk by assumption. eauto.
  - exact Hs.
Qed.

(** [Unrated -> Rated(value)] is never undone. *)
Lemma step_rated_kept token w s ev a k :
  rated_animals s !! a = Some k ->
  rated_animals (snd (step token (w, s) ev)) !! a = Some k.
Proof.
  intros Hk. destruct ev as [data | bid v e | o b r e]; simpl.
  - unfold search_results.
    now destruct (render_cards (rated_animals s) data (button_observers s)).
  - destruct (button_observers s !! bid) as [o |]; [| assumption].
    destruct (rating_handler_cases token o v e w s) as [-> | [Hnew ->]];
      [assumption |].
    cbn [snd rated_animals]. rewrite lookup_insert_ne; [assumption | congruence].
  - assumption.
Qed.

Lemma run_rated_kept token trace : forall st a k,
  rated_animals (snd st) !! a = Some k ->
  rated_animals (snd (run token st trace)) !! a = Some k.
Proof.
  unfold run. induction trace as [| ev trace IH]; intros [w s] a k Hk; simpl.
  - assumption.
  - apply IH. now apply step_rated_kept.
Qed.

(** *** Counting what is on record *)

Lemma backup_records_append file rec own a :
  length (List.filter (record_from own a)
            (backup_records (append_backup file rec)))
  <= length (List.filter (record_from own a) (backup_records file))
     + (if record_from own a rec then 1 else 0).
Proof.
  destruct file as [[| first records] |]; cbn [append_backup backup_records app].
  - destruct (is_header rec); simpl;
      destruct (record_from own a rec); simpl; lia.
  - destruct (is_header first).
    + rewrite List.filter_app, List.length_app. simpl.
      destruct (record_from own a rec); simpl; lia.
    + change (first :: records ++ [rec]) with ((first :: records) ++ [rec]).
      rewrite List.filter_app, List.length_app. simpl.
      destruct (record_from own a first), (record_from own a rec); simpl; lia.
  - change (is_header backup_header) with true. cbv iota.
    simpl. destruct (record_from own a rec); simpl; lia.
Qed.

Lemma recorded_insert c w rows row flag own a :
  ratings (db_of c w) = Some rows ->
  recorded (set_db c {| ratings := Some (rows ++ [row]);
                        idx_ratings_animal_rating := flag |} w) own a
  = recorded w own a + (if row_from own a row then 1 else 0).
Proof.
  intros Hr. unfold recorded, rows_of.
  destruct c; simpl in *; rewrite Hr;
    rewrite List.filter_app, List.length_app; simpl;
    destruct (row_from own a row); simpl; lia.
Qed.

Lemma save_rating_recorded token e w b value other own a :
  recorded (save_rating token e w b value other) own a
  <= recorded w own a
     + (if String.eqb other own && String.eqb b a then 1 else 0).
Proof.
  destruct (snd (save_rating_to_duckdb token e w b value other)) eqn:Hok.
  - rewrite (save_rating_stored _ _ _ _ _ _ Hok).
    revert Hok. unfold save_rating_to_duckdb.
    destruct (get_duckdb_connection token e) as [c |]; [| discriminate].
    destruct (ratings (db_of c w)) as [rows |] eqn:Hr; [| discriminate].
    intros _. cbn [fst]. rewrite (recorded_insert _ _ _ _ _ _ _ Hr).
    unfold row_from. simpl. lia.
  - rewrite (save_rating_fallback _ _ _ _ _ _ Hok). unfold recorded. simpl.
    pose proof (backup_records_append (ratings_backup w)
                  (backup_record e b value other) own a) as H.
    unfold backup_record in H at 2. simpl in H. lia.
Qed.

(** One step records at most what [rated_animals] gains. *)
Lemma step_recorded token own w s ev a :
  sid s = own -> foreign own ev = true ->
  recorded (fst (step token (w, s) ev)) own a + rated_once s a
  <= recorded w own a + rated_once (snd (step token (w, s) ev)) a.
Proof.
  intros Hsid Hforeign. destruct ev as [data | bid v e | other b r e]; simpl.
  - unfold search_results.
    destruct (render_cards (rated_animals s) data (button_observers s)).
    simpl. unfold rated_once. simpl. lia.
  - destruct (button_observers s !! bid) as [o |]; [| simpl; lia].
    destruct (rating_handler_cases token o v e w s) as [-> | [Hnew ->]];
      [simpl; lia |].
    cbn [fst snd].
    pose proof (save_rating_recorded token e w (observed_animal o)
                  (rating_type o) (sid s) own a) as Hsave.
    unfold rated_once. cbn [rated_animals].
    destruct (String.eqb (observed_animal o) a) eqn:Ea.
    + apply String.eqb_eq in Ea. subst a.
      rewrite Hnew, lookup_insert_eq.
      destruct (String.eqb (sid s) own); simpl in Hsave; lia.
    + apply String.eqb_neq in Ea.
      rewrite lookup_insert_ne by assumption.
      rewrite andb_false_r in Hsave. lia.
  - simpl in Hforeign. apply negb_true_iff in Hforeign.
    pose proof (save_rating_recorded token e w b r other own a) as Hsave.
    rewrite Hforeign in Hsave. simpl in Hsave. lia.
Qed.

Lemma run_invariant token own trace : forall w s,
  forallb (foreign own) trace = true ->
  session_ok own s ->
  session_ok own (snd (run token (w, s) trace))
  /\ (forall a,
        recorded (fst (run token (w, s) trace)) own a + rated_once s a
        <= recorded w own a + rated_once (snd (run token (w, s) trace)) a).
Proof.
  unfold run. induction trace as [| ev trace IH]; intros w s Hf Hs;
    cbn [fold_left].
  - split; [assumption | intros a; simpl; lia].
  - cbn [forallb] in Hf. apply andb_true_iff in Hf as [Hev Hf].
    pose proof (step_session_ok token own w s ev Hs) as Hs'.
    assert (Hstep := fun a => step_recorded token own w s ev a (proj1 Hs) Hev).
    destruct (step token (w, s) ev) as [w' s']. cbn [fst snd] in *.
    destruct (IH w' s' Hf Hs') as [Hok Hrec].
    split; [assumption |].
    intros a. specialize (Hrec a). specialize (Hstep a). lia.
Qed.

(** In the life of a session, whatever is rendered, clicked or saved by
    other sessions, at most one event goes on record for the session and an
    animal, and only for an animal in [rated_animals]; once an animal is in
    [rated_animals], a click on either of its rating controls changes
    nothing, its card ends with the acknowledgment of the value given, and
    the value stays. *)
Theorem at_most_one_rating_per_session_and_animal token own w0 trace :
  forallb (foreign own) trace = true ->
  let st := run token (w0, new_session own) trace in
  (forall a,
     recorded (fst st) own a <= recorded w0 own a + rated_once (snd st) a
     /\ rated_once (snd st) a <= 1)
  /\ (forall a k, rated_animals (snd st) !! a = Some k ->
        (forall v e,
           step token st (fire (love_button_id a) v e) = st
           /\ step token st (fire (nope_button_id a) v e) = st)
        /\ (forall data c,
              In c (fst (search_results data (snd st))) ->
              card_name c = a -> card_rating c = thank_you_message k)
        /\ (forall more,
              rated_animals (snd (run token st more)) !! a = Some k)).
Proof.
  intros Hf st.
  destruct (run_invariant token own trace w0 (new_session own) Hf
              (new_session_ok own)) as [Hok Hrec].
  fold st in Hok, Hrec. split.
  - intros a. specialize (Hrec a). unfold rated_once in *. simpl in Hrec.
    rewrite lookup_empty in Hrec.
    destruct (rated_animals (snd st) !! a); lia.
  - intros a k Hk. destruct st as [w s]. cbn [fst snd] in *.
    destruct Hok as (Hsid & [Hmade Hpair] & Hrated).
    destruct (Hrated a k Hk) as (o1 & Hlove & Ha1).
    specialize (Hpair a). rewrite Hlove in Hpair.
    destruct (button_observers s !! nope_button_id a) as [o2 |] eqn:Hnope;
      [| contradiction].
    split; [| split].
    + intros v e. split; cbn [step].
      * rewrite Hlove. apply rating_handler_rated. rewrite Ha1. eauto.
      * rewrite Hnope. apply rating_handler_rated.
        rewrite <- Hpair, Ha1. eauto.
    + intros data c Hin Hname. unfold search_results in Hin.
      pose proof (render_cards_rating (rated_animals s) data
                    (button_observers s) c) as Hcard.
      destruct (render_cards (rated_animals s) data (button_observers s)).
      cbn [fst] in *. rewrite (Hcard Hin), Hname. unfold rating_part.
      now rewrite Hk.
    + intros more. now apply run_rated_kept.
Qed.

Lemma at_most_one_rating_per_session_and_animal_witness :
  let st := run EmptyString (empty_table_world, new_session "session_a")
              sample_trace in
  forallb (foreign "session_a") sample_trace = true
  /\ rated_animals (snd st) !! "Shark" = Some love_key
  /\ recorded (fst st) "session_a" "Shark" = 1
  /\ (forall a,
        recorded (fst st) "session_a" a
        <= recorded empty_table_world "session_a" a + rated_once (snd st) a
        /\ rated_once (snd st) a <= 1).
Proof.
  intros st. split; [reflexivity |]. split; [vm_compute; reflexivity |].
  split; [vm_compute; reflexivity |].
  exact (proj1 (at_most_one_rating_per_session_and_animal EmptyString
                  "session_a" empty_table_world sample_trace eq_refl)).
Defined.

(** C5: the claim fails where two animals share their button identifiers.
    With [Sea Otter] and [Sea-Otter] both shown in a new session, the click
    on the love button of [Sea-Otter] is handled: an event is saved, but for
    [Sea Otter]; nothing is on record for [Sea-Otter], which stays unrated
    and whose card, rendered again, still ends with the buttons and not
    with the acknowledgment; a second click on that button changes
    nothing. *)
Theorem C5_colliding_control_keeps_its_buttons :
  let s1 := snd (search_results [row_named "Sea Otter"; row_named "Sea-Otter"]
                   (new_session "session_a")) in
  let st1 := step EmptyString (empty_table_world, s1)
               (fire (love_button_id "Sea-Otter") (Some 1) online) in
  map animal_name (rows_of (local_db (fst st1))) = ["Sea Otter"]
  /\ recorded (fst st1) "session_a" "Sea Otter" = 1
  /\ recorded (fst st1) "session_a" "Sea-Otter" = 0
  /\ rated_animals (snd st1) !! "Sea-Otter" = None
  /\ fst (search_results [row_named "Sea-Otter"] (snd st1))
     = [ {| card_name := "Sea-Otter";
            card_rating := rating_buttons "love_Sea_Otter" "nope_Sea_Otter" |} ]
  /\ step EmptyString st1 (fire (love_button_id "Sea-Otter") (Some 2) online)
     = st1.
Proof. repeat split; vm_compute; reflexivity. Qed.

(** * Further results *)

(** ** The shape of a sanitized identifier *)

Lemma chars_string_of l : Text.chars (string_of_list_ascii l) = l.
Proof. apply list_ascii_of_string_of_list_ascii. Qed.

Lemma string_of_chars s : string_of_list_ascii (Text.chars s) = s.
Proof. apply string_of_list_ascii_of_string. Qed.

Lemma underscore_not_alnum : is_alnum underscore = false.
Proof. reflexivity. Qed.

Lemma eqb_underscore_alnum c : is_alnum c = true -> Ascii.eqb c underscore = false.
Proof.
  intros H. apply Ascii.eqb_neq. intros ->. now rewrite underscore_not_alnum in H.
Qed.

Lemma replace_non_alnum_id_chars l :
  forallb is_id_char (replace_non_alnum l) = true.
Proof.
  induction l as [| c l IH]; simpl; [reflexivity |]. rewrite IH, andb_true_r.
  unfold is_id_char. destruct (is_alnum c) eqn:E; [now rewrite E |].
  now rewrite Ascii.eqb_refl, orb_true_r.
Qed.

Lemma collapse_keeps P l : forall b,
  forallb P l = true -> forallb P (collapse_underscores b l) = true.
Proof.
  induction l as [| c l IH]; intros b; simpl; [reflexivity |].
  rewrite andb_true_iff. intros [Hc Hl].
  destruct (Ascii.eqb c underscore); [destruct b |]; simpl;
    rewrite ?Hc; simpl; now apply IH.
Qed.

Lemma lstrip_keeps P l :
  forallb P l = true -> forallb P (lstrip_underscores l) = true.
Proof.
  induction l as [| c l IH]; simpl; [reflexivity |].
  destruct (Ascii.eqb c underscore); [| trivial].
  rewrite andb_true_iff. intros [_ Hl]. now apply IH.
Qed.

Lemma forallb_rev {A : Type} (P : A -> bool) l :
  forallb P (rev l) = forallb P l.
Proof.
  induction l as [| c l IH]; simpl; [reflexivity |].
  rewrite forallb_app, IH. simpl. rewrite andb_true_r. apply andb_comm.
Qed.

Lemma strip_keeps P l :
  forallb P l = true -> forallb P (strip_underscores l) = true.
Proof.
  intros H. unfold strip_underscores. rewrite forallb_rev.
  apply lstrip_keeps. rewrite forallb_rev. now apply lstrip_keeps.
Qed.

(** What [lstrip] leaves does not start with an underscore, and is what
    follows the leading underscores. *)
Lemma lstrip_head l : hd_error (lstrip_underscores l) <> Some underscore.
Proof.
  induction l as [| c l IH]; simpl; [discriminate |].
  destruct (Ascii.eqb c underscore) eqn:E; [assumption |].
  simpl. intros H. injection H as ->. now rewrite Ascii.eqb_refl in E.
Qed.

Lemma lstrip_suffix l :
  exists pre, l = pre ++ lstrip_underscores l
              /\ forallb (fun c => Ascii.eqb c underscore) pre = true.
Proof.
  induction l as [| c l (pre & E & Hpre)]; simpl.
  - exists []. auto.
  - destruct (Ascii.eqb c underscore) eqn:Ec.
    + exists (c :: pre). simpl. rewrite Ec, Hpre. split; [congruence | reflexivity].
    + exists []. auto.
Qed.

Lemma lstrip_fixed l :
  hd_error l <> Some underscore -> lstrip_underscores l = l.
Proof.
  destruct l as [| c l]; simpl; [reflexivity |]. intros H.
  destruct (Ascii.eqb c underscore) eqn:E; [| reflexivity].
  apply Ascii.eqb_eq in E. subst. congruence.
Qed.

(** The stripped text is a middle part of the text. *)
Lemma strip_middle l :
  exists pre post, l = pre ++ strip_underscores l ++ post.
Proof.
  unfold strip_underscores.
  destruct (lstrip_suffix l) as (pre & E1 & _).
  destruct (lstrip_suffix (rev (lstrip_underscores l))) as (post & E2 & _).
  exists pre, (rev post).
  rewrite <- rev_app_distr, <- E2, List.rev_involutive. exact E1.
Qed.

Lemma has_double_app_l a : forall b,
  has_double_underscore (a ++ b) = false -> has_double_underscore a = false.
Proof.
  induction a as [| c a IH]; intros b; [reflexivity |].
  destruct a as [| d a]; [reflexivity |].
  change ((c :: d :: a) ++ b) with (c :: d :: (a ++ b)).
  cbn [has_double_underscore]. rewrite !orb_false_iff.
  intros [H1 H2]. split; [assumption |]. now apply (IH b).
Qed.

Lemma has_double_app_r a : forall b,
  has_double_underscore (a ++ b) = false -> has_double_underscore b = false.
Proof.
  induction a as [| c a IH]; intros b; [trivial |].
  destruct a as [| d a].
  - destruct b as [| d b]; [reflexivity |].
    change ([c] ++ d :: b) with (c :: d :: b).
    cbn [has_double_underscore]. rewrite orb_false_iff. tauto.
  - change ((c :: d :: a) ++ b) with (c :: (d :: a) ++ b).
    intros H. apply IH.
    change (c :: (d :: a) ++ b) with (c :: d :: (a ++ b)) in H.
    cbn [has_double_underscore] in H. apply orb_false_iff in H as [_ H].
    exact H.
Qed.

Lemma collapse_no_double l : forall b,
  has_double_underscore (collapse_underscores b l) = false
  /\ (b = true -> hd_error (collapse_underscores b l) <> Some underscore).
Proof.
  induction l as [| c l IH]; intros b.
  - simpl. split; [reflexivity | discriminate].
  - cbn [collapse_underscores].
    destruct (Ascii.eqb c underscore) eqn:Ec.
    + destruct b.
      * destruct (IH true) as [H1 H2]. split; [assumption | exact H2].
      * destruct (IH true) as [H1 H2]. split; [| discriminate].
        specialize (H2 eq_refl).
        destruct (collapse_underscores true l) as [| d r] eqn:E;
          [reflexivity |].
        cbn [has_double_underscore] in *. rewrite H1, orb_false_r.
        apply andb_false_iff. right. apply Ascii.eqb_neq.
        intros ->. now apply H2.
    + destruct (IH false) as [H1 _]. split.
      * destruct (collapse_underscores false l) as [| d r] eqn:E;
          [reflexivity |].
        cbn [has_double_underscore] in *. now rewrite Ec, H1.
      * intros _ H. simpl in H. injection H as ->.
        now rewrite Ascii.eqb_refl in Ec.
Qed.

Lemma strip_head_ok l : hd_error (strip_underscores l) <> Some underscore.
Proof.
  unfold strip_underscores.
  set (y := lstrip_underscores l).
  destruct (lstrip_suffix (rev y)) as (post & E & _).
  assert (Ey : y = rev (lstrip_underscores (rev y)) ++ rev post).
  { rewrite <- rev_app_distr, <- E. now rewrite List.rev_involutive. }
  destruct (rev (lstrip_underscores (rev y))) as [| c r] eqn:Er;
    [discriminate |].
  simpl. intros H. apply (lstrip_head l). fold y. rewrite Ey. exact H.
Qed.

Lemma strip_last_ok l : hd_error (rev (strip_underscores l)) <> Some underscore.
Proof.
  unfold strip_underscores. rewrite List.rev_involutive. apply lstrip_head.
Qed.

Lemma sanitized_shape name :
  let ident := Text.chars (sanitize_id name) in
  forallb is_id_char ident = true
  /\ hd_error ident <> Some underscore
  /\ hd_error (rev ident) <> Some underscore
  /\ has_double_underscore ident = false.
Proof.
  intros ident. unfold ident, sanitize_id. rewrite chars_string_of.
  set (x := collapse_underscores false (replace_non_alnum (Text.chars name))).
  split; [| split; [| split]].
  - apply strip_keeps, collapse_keeps, replace_non_alnum_id_chars.
  - apply strip_head_ok.
  - apply strip_last_ok.
  - destruct (strip_middle x) as (pre & post & E).
    pose proof (proj1 (collapse_no_double
                         (replace_non_alnum (Text.chars name)) false)) as Hx.
    fold x in Hx. rewrite E in Hx.
    apply has_double_app_r in Hx. now apply has_double_app_l in Hx.
Qed.

(** The identifier is made of letters, digits and underscores, with no
    underscore first or last and no two in a row. *)
Theorem sanitize_id_well_formed name :
  let ident := Text.chars (sanitize_id name) in
  forallb is_id_char ident = true
  /\ hd_error ident <> Some underscore
  /\ hd_error (rev ident) <> Some underscore
  /\ has_double_underscore ident = false.
Proof. exact (sanitized_shape name). Qed.

Lemma replace_non_alnum_fixed l :
  forallb is_id_char l = true -> replace_non_alnum l = l.
Proof.
  induction l as [| c l IH]; simpl; [reflexivity |].
  rewrite andb_true_iff. intros [Hc Hl]. rewrite (IH Hl). f_equal.
  destruct (is_alnum c) eqn:E; [reflexivity |].
  unfold is_id_char in Hc. rewrite E in Hc. simpl in Hc.
  now apply Ascii.eqb_eq in Hc.
Qed.

Lemma collapse_fixed l : forall b,
  has_double_underscore l = false ->
  (b = true -> hd_error l <> Some underscore) ->
  collapse_underscores b l = l.
Proof.
  induction l as [| c l IH]; intros b Hd Hh; [reflexivity |].
  cbn [collapse_underscores].
  assert (Hl : has_double_underscore l = false).
  { destruct l as [| d l]; [reflexivity |].
    cbn [has_double_underscore] in Hd. now apply orb_false_iff in Hd. }
  destruct (Ascii.eqb c underscore) eqn:Ec.
  - destruct b.
    + exfalso. apply Hh; [reflexivity |]. simpl.
      apply Ascii.eqb_eq in Ec. now subst.
    + f_equal. apply IH; [assumption |]. intros _.
      destruct l as [| d l]; [discriminate |]. simpl. intros H.
      injection H as ->. cbn [has_double_underscore] in Hd.
      now rewrite Ec, Ascii.eqb_refl in Hd.
  - f_equal. apply IH; [assumption | discriminate].
Qed.

Lemma strip_fixed l :
  hd_error l <> Some underscore -> hd_error (rev l) <> Some underscore ->
  strip_underscores l = l.
Proof.
  intros H1 H2. unfold strip_underscores.
  rewrite (lstrip_fixed l H1), (lstrip_fixed (rev l) H2).
  apply List.rev_involutive.
Qed.

(** Sanitizing an identifier gives it back. *)
Theorem sanitize_id_idempotent name :
  sanitize_id (sanitize_id name) = sanitize_id name.
Proof.
  destruct (sanitized_shape name) as (Hc & Hh & Hl & Hd).
  cbv zeta in *.
  unfold sanitize_id at 1.
  rewrite (replace_non_alnum_fixed _ Hc).
  rewrite (collapse_fixed _ false Hd) by discriminate.
  rewrite (strip_fixed _ Hh Hl).
  apply string_of_chars.
Qed.

Lemma lstrip_all_underscores l :
  forallb (fun c => Ascii.eqb c underscore) l = true ->
  lstrip_underscores l = [].
Proof.
  induction l as [| c l IH]; simpl; [reflexivity |].
  rewrite andb_true_iff. intros [-> Hl]. now apply IH.
Qed.

Lemma replace_no_alnum l :
  existsb is_alnum l = false ->
  forallb (fun c => Ascii.eqb c underscore) (replace_non_alnum l) = true.
Proof.
  induction l as [| c l IH]; simpl; [reflexivity |].
  rewrite orb_false_iff. intros [-> Hl]. simpl. now apply IH.
Qed.

Lemma in_lstrip c l :
  In c l -> Ascii.eqb c underscore = false -> In c (lstrip_underscores l).
Proof.
  intros Hin Hc. induction l as [| d l IH]; simpl in *; [contradiction |].
  destruct (Ascii.eqb d underscore) eqn:Ed; [| assumption].
  destruct Hin as [-> | Hin]; [congruence | now apply IH].
Qed.

Lemma in_collapse c l : forall b,
  In c l -> Ascii.eqb c underscore = false -> In c (collapse_underscores b l).
Proof.
  induction l as [| d l IH]; intros b Hin Hc; simpl in *; [contradiction |].
  destruct (Ascii.eqb d underscore) eqn:Ed.
  - destruct Hin as [-> | Hin]; [congruence |].
    destruct b; [| right]; now apply IH.
  - destruct Hin as [-> | Hin]; [now left | right; now apply IH].
Qed.

Lemma in_replace c l : In c l -> is_alnum c = true -> In c (replace_non_alnum l).
Proof.
  intros Hin Hc. unfold replace_non_alnum. apply in_map_iff.
  exists c. now rewrite Hc.
Qed.

(** The identifier is empty exactly for the names without a letter or a
    digit, which therefore all share the buttons [love_] and [nope_]. *)
Theorem sanitize_id_empty_iff name :
  sanitize_id name = EmptyString
  <-> existsb is_alnum (Text.chars name) = false.
Proof.
  unfold sanitize_id. split.
  - intros H. apply not_true_is_false. intros Hex.
    apply existsb_exists in Hex as (c & Hin & Hc).
    pose proof (eqb_underscore_alnum c Hc) as Hu.
    assert (Hres : In c (strip_underscores
                           (collapse_underscores false
                              (replace_non_alnum (Text.chars name))))).
    { unfold strip_underscores. rewrite <- in_rev.
      apply in_lstrip; [| assumption]. rewrite <- in_rev.
      apply in_lstrip; [| assumption].
      apply in_collapse; [| assumption]. now apply in_replace. }
    apply (f_equal Text.chars) in H. rewrite chars_string_of in H.
    rewrite H in Hres. contradiction.
  - intros H.
    assert (Hall : forallb (fun c => Ascii.eqb c underscore)
                     (collapse_underscores false
                        (replace_non_alnum (Text.chars name))) = true).
    { apply collapse_keeps. now apply replace_no_alnum. }
    unfold strip_underscores. now rewrite (lstrip_all_underscores _ Hall).
Qed.

(** ** [clean_text] *)

Lemma strip_trailing_quote_fixed l :
  forallb (fun c => negb (Ascii.eqb c dquote)) l = true ->
  strip_trailing_quote l = l.
Proof.
  induction l as [| c l IH]; [reflexivity |].
  cbn [forallb]. rewrite andb_true_iff, negb_true_iff. intros [Hc Hl].
  cbn [strip_trailing_quote].
  destruct l as [| d [| d' l]].
  - now rewrite Hc.
  - cbn [forallb] in Hl. rewrite andb_true_iff, negb_true_iff in Hl.
    destruct Hl as [Hd _]. now rewrite Hd, Hc.
  - now rewrite (IH Hl).
Qed.

Lemma undouble_quotes_fixed l :
  forallb (fun c => negb (Ascii.eqb c dquote)) l = true ->
  undouble_quotes l = l.
Proof.
  induction l as [| c l IH]; [reflexivity |].
  cbn [forallb]. rewrite andb_true_iff, negb_true_iff. intros [Hc Hl].
  cbn [undouble_quotes]. destruct l as [| d l]; [reflexivity |].
  rewrite Hc. simpl andb. cbv iota. now rewrite (IH Hl).
Qed.

(** A text without a quote comes through [clean_text] as it is. *)
Theorem clean_text_without_quotes t :
  forallb (fun c => negb (Ascii.eqb c dquote)) (Text.chars t) = true ->
  clean_text (Some t) = t.
Proof.
  intros H. unfold clean_text.
  destruct t as [| c t]; [reflexivity |]. cbn [Text.is_empty].
  assert (Hl : strip_leading_quote (Text.chars (String c t))
               = Text.chars (String c t)).
  { simpl in *. apply andb_true_iff in H as [Hc _].
    apply negb_true_iff in Hc. now rewrite Hc. }
  rewrite Hl, (strip_trailing_quote_fixed _ H), (undouble_quotes_fixed _ H).
  apply string_of_chars.
Qed.

Lemma clean_text_without_quotes_witness :
  clean_text (Some "Kelp forests, 3-5 m") = "Kelp forests, 3-5 m".
Proof. exact (clean_text_without_quotes "Kelp forests, 3-5 m" eq_refl). Defined.

Lemma strip_trailing_quote_snoc l : strip_trailing_quote (l ++ [dquote]) = l.
Proof.
  induction l as [| c l IH]; [reflexivity |].
  change ((c :: l) ++ [dquote]) with (c :: (l ++ [dquote])).
  cbn [strip_trailing_quote].
  destruct l as [| d l]; [reflexivity |].
  change ((d :: l) ++ [dquote]) with (d :: (l ++ [dquote])) in *.
  destruct (l ++ [dquote]) as [| d' l'] eqn:E.
  - now destruct l.
  - now rewrite IH.
Qed.

Lemma undouble_double_quotes l : undouble_quotes (double_quotes l) = l.
Proof.
  induction l as [| c l IH]; [reflexivity |].
  cbn [double_quotes]. destruct (Ascii.eqb c dquote) eqn:Ec.
  - apply Ascii.eqb_eq in Ec. subst c.
    cbn [undouble_quotes]. rewrite Ascii.eqb_refl. simpl andb. cbv iota.
    now rewrite IH.
  - cbn [undouble_quotes].
    destruct (double_quotes l) as [| d r] eqn:E.
    + rewrite <- IH. reflexivity.
    + rewrite Ec. simpl andb. cbv iota. now rewrite IH.
Qed.

(** [clean_text] undoes the quoting of a CSV field: outer quotes go, doubled
    quotes become single. *)
Theorem clean_text_unquotes_csv_field s :
  clean_text (Some (csv_quoted s)) = s.
Proof.
  unfold clean_text, csv_quoted.
  cbn [string_of_list_ascii Text.is_empty].
  change (Text.chars (String dquote ?x)) with (dquote :: Text.chars x).
  rewrite chars_string_of.
  cbn [strip_leading_quote]. rewrite Ascii.eqb_refl.
  rewrite strip_trailing_quote_snoc, undouble_double_quotes.
  apply string_of_chars.
Qed.

(** ** The conservation class *)

Lemma match_prefix_alt s : forall r1 r2,
  Re.match_prefix (Re.Alt r1 r2) s
  = Re.match_prefix r1 s || Re.match_prefix r2 s.
Proof.
  induction s as [| c s IH]; intros r1 r2; cbn [Re.match_prefix Re.nullable Re.deriv].
  - now rewrite !orb_false_r.
  - rewrite IH.
    destruct (Re.nullable r1), (Re.nullable r2),
      (Re.match_prefix (Re.deriv c r1) s); reflexivity.
Qed.

Lemma search_alt s r1 r2 :
  Re.search (Re.Alt r1 r2) s = Re.search r1 s || Re.search r2 s.
Proof.
  induction s as [| c s IH]; cbn [Re.search]; rewrite match_prefix_alt.
  - now rewrite !orb_false_r.
  - rewrite IH.
    destruct (Re.match_prefix r1 (c :: s)), (Re.match_prefix r2 (c :: s)),
      (Re.search r1 s); reflexivity.
Qed.

Lemma re_search_two_words p q text :
  Re.compile (String.append p (String "|" q))
  = Re.Pattern (Re.Alt (literal (Text.chars p)) (literal (Text.chars q))) ->
  re_search (String.append p (String "|" q)) text
  = Returns (Text.is_substring p text || Text.is_substring q text).
Proof.
  intros H. unfold re_search. rewrite H.
  now rewrite search_alt, !search_literal.
Qed.

(** The class is decided by four words, looked for anywhere in the
    lowercased status: [endangered] or [critically] first, then
    [vulnerable] or [near threatened]; anything else, and a missing status,
    is stable. *)
Theorem conservation_class_by_substring status :
  conservation_class status
  = Returns
      match status with
      | None => conservation_stable
      | Some v =>
          let s := Text.lower v in
          if Text.is_substring "endangered" s || Text.is_substring "critically" s
          then conservation_endangered
          else if Text.is_substring "vulnerable" s
                  || Text.is_substring "near threatened" s
               then conservation_vulnerable
               else conservation_stable
      end.
Proof.
  destruct status as [v |]; [| reflexivity].
  unfold conservation_class.
  rewrite (re_search_two_words "endangered" "critically") by reflexivity.
  rewrite (re_search_two_words "vulnerable" "near threatened") by reflexivity.
  cbv zeta.
  destruct (Text.is_substring "endangered" (Text.lower v)
            || Text.is_substring "critically" (Text.lower v)); [reflexivity |].
  now destruct (Text.is_substring "vulnerable" (Text.lower v)
                || Text.is_substring "near threatened" (Text.lower v)).
Qed.

(** ** The result counter *)

Lemma filtered_data_empty_query data rows :
  filtered_data data EmptyString = Returns rows -> rows = [].
Proof. intros H. now injection H. Qed.

Lemma result_count_cases n query :
  result_count n query
  = match n with
    | 0 => if Text.is_empty query then blank else no_results_found
    | 1 => one_result
    | S (S _) => n_results n
    end.
Proof.
  unfold result_count. destruct n as [| [| n]]; simpl.
  - now destruct (Text.is_empty query).
  - reflexivity.
  - reflexivity.
Qed.

(** Under the rows that [filtered_data] returns, the counter is blank
    exactly for the empty query, says that nothing was found exactly for a
    query without matching rows, and otherwise counts the rows. *)
Theorem result_count_of_filtered_data data query rows :
  filtered_data data query = Returns rows ->
  (result_count (length rows) query = blank <-> query = EmptyString)
  /\ (result_count (length rows) query = no_results_found
      <-> query <> EmptyString /\ rows = [])
  /\ (result_count (length rows) query = one_result <-> length rows = 1)
  /\ (forall n, result_count (length rows) query = n_results n
                <-> n = length rows /\ 1 < n).
Proof.
  intros H. rewrite result_count_cases.
  destruct query as [| c q].
  - apply filtered_data_empty_query in H. subst rows. simpl.
    split; [tauto |]. split; [split; [discriminate | tauto] |].
    split; [split; discriminate |].
    intros n. split; [discriminate | lia].
  - cbn [Text.is_empty]. destruct rows as [| r [| r' rows]]; cbn [length].
    + split; [split; discriminate |].
      split; [split; [intros _; split; [discriminate | reflexivity] | reflexivity] |].
      split; [split; discriminate |].
      intros n. split; [discriminate | lia].
    + split; [split; discriminate |].
      split; [split; [discriminate | intros [_ E]; discriminate E] |].
      split; [tauto |].
      intros n. split; [discriminate | lia].
    + split; [split; discriminate |].
      split; [split; [discriminate | intros [_ E]; discriminate E] |].
      split; [split; discriminate |].
      intros n. split.
      * intros E. injection E as <-. lia.
      * intros [-> _]. reflexivity.
Qed.

Lemma result_count_of_filtered_data_witness :
  filtered_data example_dataset "shark" = Returns (firstn 3 example_dataset)
  /\ result_count 3 "shark" = n_results 3.
Proof.
  split; [vm_compute; reflexivity |].
  apply (proj2 (proj2 (proj2
    (result_count_of_filtered_data example_dataset "shark"
       (firstn 3 example_dataset) ltac:(vm_compute; reflexivity))))).
  split; [reflexivity | simpl; lia].
Defined.

(** ** Order and size of what is shown *)

Lemma subsequence_refl {A : Type} (l : list A) : subsequence l l.
Proof. induction l; [constructor | now apply subsequence_keep]. Qed.

Lemma subsequence_filter {A : Type} (f : A -> bool) l : subsequence (List.filter f l) l.
Proof.
  induction l as [| x l IH]; simpl; [constructor |].
  destruct (f x); [now apply subsequence_keep | now apply subsequence_skip].
Qed.

Lemma subsequence_nil_l {A : Type} (l : list A) : subsequence [] l.
Proof. induction l; [constructor | now apply subsequence_skip]. Qed.

Lemma subsequence_firstn {A : Type} n : forall l : list A, subsequence (firstn n l) l.
Proof.
  induction n as [| n IH]; intros l; simpl; [apply subsequence_nil_l |].
  destruct l as [| x l]; [constructor |]. apply subsequence_keep, IH.
Qed.

Lemma subsequence_In {A : Type} (l1 l2 : list A) x :
  subsequence l1 l2 -> In x l1 -> In x l2.
Proof.
  induction 1 as [| y l1 l2 _ IH | y l1 l2 _ IH]; simpl; intuition.
Qed.

(** The featured rows are rows of the dataset, in dataset order. *)
Theorem featured_animals_df_subsequence data :
  subsequence (featured_animals_df data) data.
Proof.
  unfold featured_animals_df.
  destruct (length _ <? 8); [apply subsequence_firstn | apply subsequence_filter].
Qed.

(** The landing page never shows fewer animals than eight or the whole
    dataset, whichever is smaller. *)
Theorem featured_animals_df_length data :
  Nat.min 8 (length data) <= length (featured_animals_df data).
Proof.
  unfold featured_animals_df.
  destruct (length _ <? 8) eqn:E.
  - rewrite length_firstn. lia.
  - apply Nat.ltb_ge in E. lia.
Qed.

(** ** More on the filter *)

(** The rows found are rows of the dataset, in dataset order. *)
Theorem filtered_data_subsequence data query rows :
  filtered_data data query = Returns rows -> subsequence rows data.
Proof.
  unfold filtered_data. destruct (Text.is_empty query).
  - intros H. injection H as <-. apply subsequence_nil_l.
  - destruct (Re.compile (Text.lower query)); try discriminate.
    destruct (negb (Text.is_ascii query)); [discriminate |].
    destruct (negb (forallb has_str_accessor (columns_after_name data)));
      [discriminate |].
    destruct (negb (ascii_cells data)); [discriminate |].
    intros H. injection H as <-. apply subsequence_filter.
Qed.

Lemma filtered_data_subsequence_witness :
  filtered_data example_dataset "SHARK" = Returns (firstn 3 example_dataset)
  /\ subsequence (firstn 3 example_dataset) example_dataset.
Proof.
  split; [vm_compute; reflexivity |].
  exact (filtered_data_subsequence example_dataset "SHARK"
           (firstn 3 example_dataset) ltac:(vm_compute; reflexivity)).
Defined.

Lemma lower_char_idempotent c :
  Text.lower_char (Text.lower_char c) = Text.lower_char c.
Proof. destruct c as [[] [] [] [] [] [] [] []]; reflexivity. Qed.

Lemma lower_idempotent s : Text.lower (Text.lower s) = Text.lower s.
Proof.
  induction s as [| c s IH]; simpl; [reflexivity |].
  now rewrite lower_char_idempotent, IH.
Qed.

Lemma is_empty_lower s : Text.is_empty (Text.lower s) = Text.is_empty s.
Proof. now destruct s. Qed.

Lemma is_ascii_lower_char c :
  Text.is_ascii_char (Text.lower_char c) = Text.is_ascii_char c.
Proof. destruct c as [[] [] [] [] [] [] [] []]; reflexivity. Qed.

Lemma is_ascii_lower s : Text.is_ascii (Text.lower s) = Text.is_ascii s.
Proof.
  unfold Text.is_ascii, Text.chars.
  induction s as [| c s IH]; simpl; [reflexivity |].
  now rewrite is_ascii_lower_char, IH.
Qed.

(** The case of the letters of the query does not matter, whatever else the
    query holds. *)
Theorem filtered_data_ignores_query_case data query :
  filtered_data data (Text.lower query) = filtered_data data query.
Proof.
  unfold filtered_data.
  now rewrite is_empty_lower, lower_idempotent, is_ascii_lower.
Qed.

Lemma starts_with_refl p : Text.starts_with p p = true.
Proof.
  induction p as [| c p IH]; simpl; [reflexivity |].
  now rewrite Ascii.eqb_refl.
Qed.

Lemma is_substring_refl s : Text.is_substring s s = true.
Proof.
  unfold Text.is_substring. destruct (Text.chars s) as [| c l] eqn:E.
  - reflexivity.
  - cbn [Text.contains_at_some_offset]. now rewrite starts_with_refl.
Qed.

(** A click on a featured card sends the animal's name, which the effect
    writes into the search box; the page then leaves landing mode and the
    rows found include that animal.  This holds for a name that is not
    empty, is ASCII and has no apostrophe, line break or character special
    to [re.compile], in a dataset whose searched cells are ASCII and whose
    searched columns each hold a string. *)
Theorem featured_click_finds_the_animal data a search_query :
  In a data ->
  Animal.name a <> EmptyString ->
  plain_text (Animal.name a) = true ->
  survives_onclick (Animal.name a) = true ->
  forallb has_str_accessor (columns_after_name data) = true ->
  ascii_cells data = true ->
  featured_card_click (Animal.name a) = Returns (Animal.name a)
  /\ (let query :=
        on_featured_animal_click (Some (Animal.name a)) search_query in
      query = Animal.name a
      /\ landing_mode query = false
      /\ exists rows, filtered_data data query = Returns rows /\ In a rows).
Proof.
  intros Hin Hne Hplain Hclick Hacc Hcells.
  split; [unfold featured_card_click; now rewrite Hclick |].
  intros query.
  assert (Hq : query = Animal.name a).
  { unfold query, on_featured_animal_click.
    destruct (Animal.name a); [congruence | reflexivity]. }
  assert (Hascii : Text.is_ascii (Animal.name a) = true).
  { unfold ascii_cells in Hcells. rewrite List.forallb_forall in Hcells.
    specialize (Hcells a Hin). unfold searched_columns in Hcells.
    cbn [forallb ascii_cell] in Hcells.
    now apply andb_true_iff in Hcells as [Hname _]. }
  rewrite Hq. split; [reflexivity |]. split.
  - unfold landing_mode. destruct (Animal.name a); [congruence | reflexivity].
  - exists (spec_filter data (Animal.name a)).
    split; [now apply filtered_data_plain |].
    unfold spec_filter. apply filter_In. split; [assumption |].
    unfold spec_row_matches, searched_columns. cbn [existsb spec_cell_matches].
    now rewrite is_substring_refl.
Qed.

Lemma featured_click_finds_the_animal_witness :
  featured_card_click "Whale Shark" = Returns "Whale Shark"
  /\ (let query :=
        on_featured_animal_click (Some "Whale Shark") EmptyString in
      query = "Whale Shark"
      /\ landing_mode query = false
      /\ exists rows,
           filtered_data example_dataset query = Returns rows
           /\ In (row_named "Whale Shark") rows).
Proof.
  apply (featured_click_finds_the_animal example_dataset
           (row_named "Whale Shark") EmptyString).
  - simpl. tauto.
  - discriminate.
  - reflexivity.
  - reflexivity.
  - reflexivity.
  - reflexivity.
Defined.

(** ** More on the rating store *)

(** [save_rating] puts the event in exactly one place: at the end of the
    table of the database it reached, or, when no connection opens or the
    table is missing, at the end of the backup file; the other two stores
    stay as they were. *)
Theorem save_rating_writes_once token e w a value own :
  let w' := save_rating token e w a value own in
  let row := {| id := fresh_uuid e; timestamp := now e; session_id := own;
                animal_name := a; rating := value |} in
  (exists b rows,
      get_duckdb_connection token e = Some b
      /\ ratings (db_of b w) = Some rows
      /\ ratings (db_of b w') = Some (rows ++ [row])
      /\ (forall b', b' <> b -> db_of b' w' = db_of b' w)
      /\ ratings_backup w' = ratings_backup w)
  \/ ((get_duckdb_connection token e = None
       \/ exists b, get_duckdb_connection token e = Some b
                    /\ ratings (db_of b w) = None)
      /\ motherduck_db w' = motherduck_db w
      /\ local_db w' = local_db w
      /\ ratings_backup w'
         = append_backup (ratings_backup w) [now e; own; a; value]).
Proof.
  intros w' row. unfold w', save_rating, save_rating_to_duckdb.
  destruct (get_duckdb_connection token e) as [b |] eqn:Hc.
  - destruct (ratings (db_of b w)) as [rows |] eqn:Hr.
    + left. exists b, rows. cbn [fst]. rewrite db_of_set_db.
      split; [reflexivity |]. split; [first [exact Hr | reflexivity] |].
      split; [reflexivity |]. split.
      * intros b' Hb. now apply rows_of_other_db.
      * now destruct b.
    + right. split; [right; eauto |]. auto.
  - right. split; [now left |]. auto.
Qed.

(** Once [initialize_ratings_table] has returned [True], a save that
    reaches the same database succeeds and leaves the backup file alone. *)
Theorem save_after_initialize_succeeds token e e' w w1 a value own :
  initialize_ratings_table token e w = (w1, true) ->
  get_duckdb_connection token e' = get_duckdb_connection token e ->
  snd (save_rating_to_duckdb token e' w1 a value own) = true
  /\ ratings_backup (save_rating token e' w1 a value own) = ratings_backup w.
Proof.
  intros Hinit Hc.
  destruct (get_duckdb_connection token e) as [b |] eqn:Hb.
  - rewrite (initialize_ratings_table_connected _ _ _ _ Hb) in Hinit.
    injection Hinit as <-.
    assert (Hok : snd (save_rating_to_duckdb token e'
                         (set_db b (table_of (rows_of (db_of b w))) w)
                         a value own) = true).
    { unfold save_rating_to_duckdb. rewrite Hc, db_of_set_db. reflexivity. }
    split; [exact Hok |].
    rewrite (save_rating_stored _ _ _ _ _ _ Hok).
    unfold save_rating_to_duckdb. rewrite Hc, db_of_set_db. simpl.
    now destruct b.
  - unfold initialize_ratings_table in Hinit. rewrite Hb in Hinit.
    discriminate.
Qed.

Lemma save_after_initialize_succeeds_witness :
  let w1 := fst (initialize_ratings_table EmptyString online
                   {| motherduck_db := no_table; local_db := no_table;
                      ratings_backup := None |}) in
  snd (save_rating_to_duckdb EmptyString online w1
         "Shark" love_rating "session_a") = true
  /\ ratings_backup (save_rating EmptyString online w1
                       "Shark" love_rating "session_a") = None.
Proof.
  exact (save_after_initialize_succeeds EmptyString online online
           {| motherduck_db := no_table; local_db := no_table;
              ratings_backup := None |} _ "Shark" love_rating "session_a"
           eq_refl eq_refl).
Defined.

Lemma sql_top10_one rows value a :
  group_counts (rows_with_rating value rows) = [(a, 1)] ->
  forall out, sql_top10 rows value out -> out = [(a, 1)].
Proof.
  intros Hg out (full & Hperm & _ & ->). rewrite Hg in Hperm.
  apply Permutation_sym, Permutation_length_1_inv in Hperm. now subst.
Qed.

Lemma sql_top10_none rows value :
  group_counts (rows_with_rating value rows) = [] ->
  forall out, sql_top10 rows value out -> out = [].
Proof.
  intros Hg out (full & Hperm & _ & ->). rewrite Hg in Hperm.
  apply Permutation_sym, Permutation_nil in Hperm. now subst.
Qed.

(** On a database without ratings, initialising, saving one love vote and
    summarising over the same connection can only answer with that animal,
    one vote, in the love list and an empty nope list; and the other way
    round for a nope vote. *)
Theorem first_rating_is_the_whole_summary token e w b a own res :
  get_duckdb_connection token e = Some b ->
  no_ratings (db_of b w) = true ->
  let w1 := fst (initialize_ratings_table token e w) in
  (ratings_summary_answer token e
     (save_rating token e w1 a love_rating own) res ->
   res = Some {| love := [(a, 1)]; nope := [] |})
  /\ (ratings_summary_answer token e
        (save_rating token e w1 a nope_rating own) res ->
      res = Some {| love := []; nope := [(a, 1)] |}).
Proof.
  intros Hc Hno w1.
  assert (Hrows : rows_of (db_of b w) = []).
  { unfold no_ratings, rows_of in *.
    destruct (ratings (db_of b w)) as [[| r rows] |]; congruence. }
  assert (Hw1 : w1 = set_db b (table_of []) w).
  { unfold w1. rewrite (initialize_ratings_table_connected _ _ _ _ Hc).
    simpl. now rewrite Hrows. }
  assert (Hsaved : forall value,
             ratings (db_of b (save_rating token e w1 a value own))
             = Some [{| id := fresh_uuid e; timestamp := now e;
                        session_id := own; animal_name := a;
                        rating := value |}]).
  { intros value. rewrite Hw1. unfold save_rating, save_rating_to_duckdb.
    rewrite Hc, db_of_set_db. simpl. now rewrite db_of_set_db. }
  split; intros Hres.
  - specialize (Hsaved love_rating).
    destruct Hres as [Hc' | b' Hc' Hr | b' Hc' Hr | b' rows lv np Hc' Hr _ Hl Hn];
      try congruence.
    assert (b' = b) by congruence. subst b'.
    rewrite Hsaved in Hr. injection Hr as <-.
    f_equal. f_equal.
    + refine (sql_top10_one _ _ _ _ _ Hl). reflexivity.
    + refine (sql_top10_none _ _ _ _ Hn). reflexivity.
  - specialize (Hsaved nope_rating).
    destruct Hres as [Hc' | b' Hc' Hr | b' Hc' Hr | b' rows lv np Hc' Hr _ Hl Hn];
      try congruence.
    assert (b' = b) by congruence. subst b'.
    rewrite Hsaved in Hr. injection Hr as <-.
    f_equal. f_equal.
    + refine (sql_top10_none _ _ _ _ Hl). reflexivity.
    + refine (sql_top10_one _ _ _ _ _ Hn). reflexivity.
Qed.

Lemma first_rating_is_the_whole_summary_witness :
  let w1 := fst (initialize_ratings_table EmptyString online empty_table_world) in
  get_ratings_summary EmptyString online
    (save_rating EmptyString online w1 "Shark" love_rating "session_a")
  = Some {| love := [("Shark", 1)]; nope := [] |}.
Proof.
  intros w1.
  exact (proj1 (first_rating_is_the_whole_summary EmptyString online
                  empty_table_world local "Shark" "session_a" _
                  eq_refl eq_refl)
               (get_ratings_summary_admissible _ _ _)).
Defined.

(** The answer of the summary depends on the database reached only. *)
Lemma ratings_summary_answer_same_db token e w w' b res :
  get_duckdb_connection token e = Some b ->
  db_of b w' = db_of b w ->
  ratings_summary_answer token e w res ->
  ratings_summary_answer token e w' res.
Proof.
  intros Hc Hdb H.
  destruct H as [Hc' | b' Hc' Hr | b' Hc' Hr | b' rows lv np Hc' Hr Hne Hl Hn].
  - congruence.
  - assert (b' = b) by congruence. subst b'.
    apply (answer_no_table _ _ _ b); [assumption | now rewrite Hdb].
  - assert (b' = b) by congruence. subst b'.
    apply (answer_no_rows _ _ _ b); [assumption | now rewrite Hdb].
  - assert (b' = b) by congruence. subst b'.
    apply (answer_rows _ _ _ b rows); try assumption. now rewrite Hdb.
Qed.

(** With a token set, a rating saved while MotherDuck cannot be reached and
    the local database can be opened never reaches MotherDuck.  When the
    local database has the ratings table, the save succeeds and the rating
    is its last row, the backup file untouched; when it has not, the save
    fails and the rating is the last record of the backup file.  Either way
    a later summary read from MotherDuck answers as if the rating had not
    been given. *)
Theorem rating_saved_during_outage_is_missing_from_motherduck
  token e e' w a value own :
  Text.is_empty token = false ->
  motherduck_up e = false -> local_up e = true ->
  motherduck_up e' = true ->
  let w' := save_rating token e w a value own in
  let row := {| id := fresh_uuid e; timestamp := now e; session_id := own;
                animal_name := a; rating := value |} in
  motherduck_db w' = motherduck_db w
  /\ (forall res, ratings_summary_answer token e' w' res
                  <-> ratings_summary_answer token e' w res)
  /\ match ratings (local_db w) with
     | Some rows =>
         snd (save_rating_to_duckdb token e w a value own) = true
         /\ ratings (local_db w') = Some (rows ++ [row])
         /\ ratings_backup w' = ratings_backup w
     | None =>
         snd (save_rating_to_duckdb token e w a value own) = false
         /\ local_db w' = local_db w
         /\ ratings_backup w'
            = append_backup (ratings_backup w) [now e; own; a; value]
     end.
Proof.
  intros Htok Hmd Hlocal Hmd' w' row.
  assert (Hc : get_duckdb_connection token e = Some local).
  { unfold get_duckdb_connection. now rewrite Htok, Hmd, Hlocal. }
  assert (Hc' : get_duckdb_connection token e' = Some motherduck).
  { unfold get_duckdb_connection. now rewrite Htok, Hmd'. }
  assert (Hsame : motherduck_db w' = motherduck_db w
                  -> forall res, ratings_summary_answer token e' w' res
                                 <-> ratings_summary_answer token e' w res).
  { intros Hdb res. split;
      apply (ratings_summary_answer_same_db _ _ _ _ motherduck);
      try assumption; simpl; congruence. }
  destruct (ratings (local_db w)) as [rows |] eqn:Hrows.
  - assert (Hok : snd (save_rating_to_duckdb token e w a value own) = true).
    { unfold save_rating_to_duckdb. rewrite Hc. simpl. now rewrite Hrows. }
    assert (Hw' : w' = set_db local
                         {| ratings := Some (rows ++ [row]);
                            idx_ratings_animal_rating :=
                              idx_ratings_animal_rating (local_db w) |} w).
    { unfold w'. rewrite (save_rating_stored _ _ _ _ _ _ Hok).
      unfold save_rating_to_duckdb. rewrite Hc. simpl. now rewrite Hrows. }
    assert (Hdb : motherduck_db w' = motherduck_db w) by now rewrite Hw'.
    split; [exact Hdb |]. split; [exact (Hsame Hdb) |].
    split; [exact Hok |]. rewrite Hw'. simpl. auto.
  - assert (Hok : snd (save_rating_to_duckdb token e w a value own) = false).
    { unfold save_rating_to_duckdb. rewrite Hc. simpl. now rewrite Hrows. }
    assert (Hw' : w' = {| motherduck_db := motherduck_db w;
                          local_db := local_db w;
                          ratings_backup :=
                            append_backup (ratings_backup w)
                              (backup_record e a value own) |}).
    { unfold w'. now rewrite (save_rating_fallback _ _ _ _ _ _ Hok). }
    assert (Hdb : motherduck_db w' = motherduck_db w) by now rewrite Hw'.
    split; [exact Hdb |]. split; [exact (Hsame Hdb) |].
    split; [exact Hok |]. rewrite Hw'. simpl. auto.
Qed.

Lemma rating_saved_during_outage_is_missing_from_motherduck_witness :
  let outage :=
    {| motherduck_up := false; local_up := true;
       now := "2025-01-01T12:00:00"; fresh_uuid := "0000-0003" |} in
  let w' := save_rating "token" outage one_vote_world
              "Penguin" love_rating "session_a" in
  motherduck_db w' = motherduck_db one_vote_world
  /\ map animal_name (rows_of (local_db w')) = ["Shark"; "Penguin"]
  /\ get_ratings_summary "token" online w'
     = get_ratings_summary "token" online one_vote_world.
Proof.
  intros outage w'.
  destruct (rating_saved_during_outage_is_missing_from_motherduck "token"
              outage online one_vote_world "Penguin" love_rating "session_a"
              eq_refl eq_refl eq_refl eq_refl)
    as (Hdb & _ & _).
  split; [exact Hdb |]. split; reflexivity.
Defined.

(** *** Votes shown against votes stored *)

Lemma total_votes_bump a g : total_votes (bump a g) = S (total_votes g).
Proof.
  induction g as [| [b n] g IH]; simpl; [reflexivity |].
  destruct (String.eqb a b); simpl; [reflexivity | rewrite IH; lia].
Qed.

Lemma total_votes_group_counts rows :
  total_votes (group_counts rows) = length rows.
Proof.
  unfold group_counts.
  assert (H : forall g,
             total_votes (fold_left (fun groups r => bump (animal_name r) groups)
                            rows g)
             = total_votes g + length rows).
  { induction rows as [| r rows IH]; intros g; simpl; [lia |].
    rewrite IH, total_votes_bump. lia. }
  now rewrite H.
Qed.

Lemma total_votes_perm l l' : Permutation l l' -> total_votes l = total_votes l'.
Proof.
  induction 1 as [| x l l' _ IH | x y l | l l' l'' _ IH1 _ IH2]; simpl; lia.
Qed.

Lemma total_votes_firstn k : forall l,
  total_votes (firstn k l) <= total_votes l.
Proof.
  induction k as [| k IH]; intros [| x l]; simpl; try lia.
  specialize (IH l). lia.
Qed.

Lemma sql_top10_total rows value out :
  sql_top10 rows value out ->
  total_votes out <= length (rows_with_rating value rows)
  /\ (length out < 10 ->
      total_votes out = length (rows_with_rating value rows)).
Proof.
  intros (full & Hperm & _ & ->).
  rewrite <- (total_votes_group_counts (rows_with_rating value rows)).
  rewrite <- (total_votes_perm _ _ Hperm). split.
  - apply total_votes_firstn.
  - intros Hlen. rewrite length_firstn in Hlen.
    now rewrite firstn_all2 by lia.
Qed.

(** The votes a list of the summary shows never exceed the votes stored
    with that rating value, and are all of them while the list has fewer
    than ten entries. *)
Theorem summary_votes_against_stored token e w s :
  ratings_summary_answer token e w (Some s) ->
  let rows := connected_rows token e w in
  (total_votes (love s) <= length (rows_with_rating love_rating rows)
   /\ (length (love s) < 10 ->
       total_votes (love s) = length (rows_with_rating love_rating rows)))
  /\ (total_votes (nope s) <= length (rows_with_rating nope_rating rows)
      /\ (length (nope s) < 10 ->
          total_votes (nope s) = length (rows_with_rating nope_rating rows))).
Proof.
  intros H rows. unfold rows, connected_rows, rows_of.
  inversion H as [| | | b rws lv np Hc Hr Hne Hl Hn]; subst.
  rewrite Hc, Hr. simpl.
  split; now apply sql_top10_total.
Qed.

Lemma summary_votes_against_stored_witness :
  total_votes [("Shark", 1)]
  <= length (rows_with_rating love_rating
               (connected_rows EmptyString online one_vote_world)).
Proof.
  exact (proj1 (proj1 (summary_votes_against_stored EmptyString online
                         one_vote_world
                         {| love := [("Shark", 1)]; nope := [] |}
                         (get_ratings_summary_admissible
                            EmptyString online one_vote_world)))).
Defined.

(** ** More on the session *)

(** What holds of a new session and is kept by every step holds after any
    trace. *)
Lemma run_session_induction token (P : session -> Prop) own :
  P (new_session own) ->
  (forall w s ev, P s -> P (snd (step token (w, s) ev))) ->
  forall trace w, P (snd (run token (w, new_session own) trace)).
Proof.
  intros H0 Hstep trace w. unfold run.
  generalize (new_session own) H0. revert w.
  induction trace as [| ev trace IH]; intros w s Hs; cbn [fold_left].
  - exact Hs.
  - specialize (Hstep w s ev Hs).
    destruct (step token (w, s) ev) as [w' s']. now apply IH.
Qed.

Lemma step_session_cases token w s ev :
  let s' := snd (step token (w, s) ev) in
  (rated_animals s' = rated_animals s
   /\ ratings_trigger s' = ratings_trigger s
   /\ notifications s' = notifications s)
  \/ exists a k,
       rated_animals s !! a = None
       /\ rated_animals s' = <[a := k]> (rated_animals s)
       /\ ratings_trigger s' = ratings_trigger s + 1
       /\ notifications s' = notifications s ++ [notification_for k a].
Proof.
  destruct ev as [data | bid v e | other a r e]; cbn [step].
  - left. unfold search_results.
    now destruct (render_cards (rated_animals s) data (button_observers s)).
  - destruct (button_observers s !! bid) as [o |]; [| now left].
    destruct (rating_handler_cases token o v e w s) as [-> | [Hnew ->]];
      [now left |].
    right. exists (observed_animal o), (key o). cbn [snd]. auto.
  - now left.
Qed.

(** The refresh counter, the notifications shown and the rated animals keep
    step: one of each per rated animal. *)
Theorem session_counters_agree token own trace w :
  let s := snd (run token (w, new_session own) trace) in
  ratings_trigger s = size (rated_animals s)
  /\ length (notifications s) = size (rated_animals s).
Proof.
  apply (run_session_induction token
           (fun s => ratings_trigger s = size (rated_animals s)
                     /\ length (notifications s) = size (rated_animals s))).
  - simpl. now rewrite map_size_empty.
  - intros w0 s ev [Ht Hn].
    destruct (step_session_cases token w0 s ev)
      as [(-> & -> & ->) | (a & k & Hnew & -> & -> & ->)]; [now split |].
    rewrite (map_size_insert_None _ _ _ Hnew), List.length_app. simpl. lia.
Qed.

Lemma notification_for_inj k a k' a' :
  notification_for k a = notification_for k' a' -> k = k' /\ a = a'.
Proof. destruct k, k'; simpl; intros H; inversion H; auto. Qed.

(** A notification has been shown for an animal and a value exactly when
    the animal is rated with that value, which is what its card
    acknowledges. *)
Theorem notifications_match_rated_animals token own trace w a k :
  let s := snd (run token (w, new_session own) trace) in
  In (notification_for k a) (notifications s)
  <-> rated_animals s !! a = Some k.
Proof.
  revert a k.
  apply (run_session_induction token
           (fun s => forall a k,
                In (notification_for k a) (notifications s)
                <-> rated_animals s !! a = Some k)).
  - intros a k. simpl. rewrite lookup_empty. split; [tauto | discriminate].
  - intros w0 s ev IH a k.
    destruct (step_session_cases token w0 s ev)
      as [(-> & _ & ->) | (a0 & k0 & Hnew & -> & _ & ->)]; [apply IH |].
    rewrite in_app_iff, IH. simpl.
    destruct (decide (a0 = a)) as [-> | Hne].
    + rewrite lookup_insert_eq, Hnew. split.
      * intros [H | [H | []]]; [discriminate |].
        apply notification_for_inj in H as [-> _]. reflexivity.
      * intros H. injection H as ->. auto.
    + rewrite lookup_insert_ne by assumption. split; [| auto].
      intros [H | [H | []]]; [assumption |].
      apply notification_for_inj in H as [_ ->]. contradiction.
Qed.

Lemma register_new_or_old o observers :
  is_Some (register o observers !! observed_button o).
Proof.
  unfold register. destruct (observers !! observed_button o) eqn:E.
  - rewrite E. eauto.
  - rewrite lookup_insert_eq. eauto.
Qed.

Lemma render_cards_keeps current data : forall observers bid,
  is_Some (observers !! bid) ->
  is_Some (snd (render_cards current data observers) !! bid).
Proof.
  induction data as [| animal rest IH]; intros observers bid [o Ho];
    cbn [render_cards]; [simpl; eauto |].
  specialize (IH (register (nope_observer (Animal.name animal))
                    (register (love_observer (Animal.name animal)) observers))
                 bid).
  destruct (render_cards current rest _) as [cards observers']. cbn [snd] in *.
  apply IH. exists o. now do 2 apply register_keeps.
Qed.

Lemma render_cards_names current data : forall observers,
  map card_name (fst (render_cards current data observers))
  = map Animal.name data.
Proof.
  induction data as [| animal rest IH]; intros observers;
    cbn [render_cards]; [reflexivity |].
  specialize (IH (register (nope_observer (Animal.name animal))
                    (register (love_observer (Animal.name animal)) observers))).
  destruct (render_cards current rest _) as [cards observers'].
  cbn [fst map card_name] in *. now rewrite IH.
Qed.

Lemma render_cards_registers current data : forall observers a,
  In a data ->
  is_Some (snd (render_cards current data observers)
           !! love_button_id (Animal.name a))
  /\ is_Some (snd (render_cards current data observers)
              !! nope_button_id (Animal.name a)).
Proof.
  induction data as [| animal rest IH]; intros observers a Hin;
    [contradiction |].
  cbn [render_cards].
  set (obs2 := register (nope_observer (Animal.name animal))
                 (register (love_observer (Animal.name animal)) observers)).
  pose proof (render_cards_keeps current rest obs2) as Hkeep.
  specialize (IH obs2 a).
  destruct (render_cards current rest obs2) as [cs observers'].
  cbn [snd] in *.
  destruct Hin as [-> | Hin]; [| now apply IH].
  split; apply Hkeep.
  - destruct (register_new_or_old (love_observer (Animal.name a)) observers)
      as [o Ho].
    exists o. now apply register_keeps.
  - apply (register_new_or_old (nope_observer (Animal.name a))).
Qed.

(** [search_results] gives one card per row, in the order of the rows, and
    leaves an observer registered for the love and for the nope control of
    every row; rated animals and notifications are not touched. *)
Theorem search_results_cards_and_observers data s :
  let cards := fst (search_results data s) in
  let s' := snd (search_results data s) in
  map card_name cards = map Animal.name data
  /\ (forall c, In c cards ->
        card_rating c = rating_part (rated_animals s) (card_name c))
  /\ (forall a, In a data ->
        is_Some (button_observers s' !! love_button_id (Animal.name a))
        /\ is_Some (button_observers s' !! nope_button_id (Animal.name a)))
  /\ rated_animals s' = rated_animals s
  /\ notifications s' = notifications s.
Proof.
  intros cards s'. unfold cards, s', search_results.
  pose proof (render_cards_names (rated_animals s) data (button_observers s))
    as Hnames.
  pose proof (render_cards_rating (rated_animals s) data (button_observers s))
    as Hrating.
  pose proof (render_cards_registers (rated_animals s) data
                (button_observers s)) as Hobs.
  destruct (render_cards (rated_animals s) data (button_observers s))
    as [cs observers']. cbn [fst snd] in *.
  repeat split; try assumption; try reflexivity; now apply Hobs.
Qed.

Lemma register_absent o observers :
  observers !! observed_button o = None ->
  register o observers = <[observed_button o := o]> observers.
Proof. intros H. unfold register. now rewrite H. Qed.

Lemma register_present o observers o' :
  observers !! observed_button o = Some o' -> register o observers = observers.
Proof. intros H. unfold register. now rewrite H. Qed.

(** When two rows of different names get the same identifier, the controls
    on the card of the second belong to the first: in a new session showing
    both, a click on the love button of the second rates the first, saves
    the event under the name of the first, and leaves the second unrated,
    its card still showing the buttons. *)
Theorem colliding_button_rates_the_first_animal token own ra rb n e w :
  Animal.name ra <> Animal.name rb ->
  sanitize_id (Animal.name ra) = sanitize_id (Animal.name rb) ->
  let a := Animal.name ra in
  let b := Animal.name rb in
  let s1 := snd (search_results [ra; rb] (new_session own)) in
  let after := step token (w, s1) (fire (love_button_id b) (Some (S n)) e) in
  fst after = save_rating token e w a love_rating own
  /\ rated_animals (snd after) !! a = Some love_key
  /\ rated_animals (snd after) !! b = None
  /\ rating_part (rated_animals (snd after)) b
     = rating_buttons (love_button_id b) (nope_button_id b).
Proof.
  intros Hne Hsame a b s1 after.
  destruct (same_sanitize_id _ _ Hsame) as [Hlove Hnope].
  fold a b in Hlove, Hnope.
  assert (Hobs : button_observers s1 !! love_button_id b
                 = Some (love_observer a)).
  { unfold s1, search_results. cbn [render_cards new_session rated_animals
        button_observers snd Animal.name]. fold a b.
    rewrite (register_absent (love_observer a) ∅) by apply lookup_empty.
    rewrite (register_absent (nope_observer a)).
    2:{ cbn [observed_button nope_observer].
        rewrite lookup_insert_ne by apply love_nope_distinct.
        apply lookup_empty. }
    rewrite (register_present (love_observer b) _ (love_observer a)).
    2:{ cbn [observed_button love_observer]. rewrite <- Hlove.
        rewrite lookup_insert_ne
          by (intros H; symmetry in H; exact (love_nope_distinct _ _ H)).
        apply lookup_insert_eq. }
    rewrite (register_present (nope_observer b) _ (nope_observer a)).
    2:{ cbn [observed_button nope_observer]. rewrite <- Hnope.
        apply lookup_insert_eq. }
    cbn [observed_button nope_observer love_observer]. rewrite <- Hlove.
    rewrite lookup_insert_ne
      by (intros H; symmetry in H; exact (love_nope_distinct _ _ H)).
    apply lookup_insert_eq. }
  assert (Hrated : rated_animals s1 = ∅).
  { unfold s1, search_results.
    now destruct (render_cards _ _ _). }
  assert (Hsid : sid s1 = own).
  { unfold s1, search_results.
    now destruct (render_cards _ _ _). }
  unfold after. cbn [step]. rewrite Hobs.
  unfold rating_handler. cbn [observed_animal love_observer].
  rewrite Hrated, lookup_empty. cbn [fst snd rated_animals key rating_type].
  rewrite Hsid.
  split; [reflexivity |]. split; [apply lookup_insert_eq |].
  assert (Hb : <[a := love_key]> (∅ : gmap string rating_key) !! b = None).
  { rewrite lookup_insert_ne by exact Hne. apply lookup_empty. }
  split; [exact Hb |].
  change (match <[a := love_key]> (∅ : gmap string rating_key) !! b with
          | Some k => thank_you_message k
          | None => rating_buttons (love_button_id b) (nope_button_id b)
          end = rating_buttons (love_button_id b) (nope_button_id b)).
  now rewrite Hb.
Qed.

Lemma colliding_button_rates_the_first_animal_witness :
  let s1 := snd (search_results [row_named "Sea Otter"; row_named "Sea-Otter"]
                   (new_session "session_a")) in
  let after := step EmptyString (empty_table_world, s1)
                 (fire (love_button_id "Sea-Otter") (Some 1) online) in
  rated_animals (snd after) !! "Sea Otter" = Some love_key
  /\ rated_animals (snd after) !! "Sea-Otter" = None.
Proof.
  intros s1 after.
  destruct (colliding_button_rates_the_first_animal EmptyString "session_a"
              (row_named "Sea Otter") (row_named "Sea-Otter") 0 online
              empty_table_world ltac:(discriminate)
              ltac:(vm_compute; reflexivity))
    as (_ & Ha & Hb & _).
  split; [exact Ha | exact Hb].
Defined.

(** ** The leaderboard panel *)

Lemma rating_items_ranks l : forall first,
  map item_rank (rating_items first l) = seq (first + 1) (length l)
  /\ map item_entry (rating_items first l) = l.
Proof.
  induction l as [| [a n] l IH]; intros first; simpl; [auto |].
  destruct (IH (S first)) as [H1 H2].
  unfold item_rank, item_entry in *. simpl.
  rewrite H1, H2. split; reflexivity.
Qed.

(** The panel says that there are no ratings exactly for the sentinel;
    otherwise each column shows the entries of its list in order, ranked
    1, 2, 3 and so on, or the text for no votes when its list is empty. *)
Theorem ratings_summary_shows_the_summary summary_data :
  match ratings_summary summary_data, summary_data with
  | no_ratings_yet, None => True
  | ratings_summary_grid love_column nope_column, Some s =>
      column_shows love_column (love s) /\ column_shows nope_column (nope s)
  | _, _ => False
  end.
Proof.
  assert (Hcol : forall l, column_shows (summary_column l) l).
  { intros [| p l]; [reflexivity |]. cbn [summary_column column_shows].
    destruct (rating_items_ranks (p :: l) 0) as [H1 H2].
    split; [discriminate | split; assumption]. }
  destruct summary_data as [s |]; simpl; auto.
Qed.

(** ** Queries that cannot be compiled *)

Lemma run_plain_prefix p : forall its rest,
  forallb (fun c => negb (is_special c)) p = true ->
  Re.run {| Re.outer := []; Re.cur := {| Re.alts := []; Re.items := its |};
            Re.last := Re.Plain; Re.pmode := Re.Normal |} (p ++ rest)
  = Re.run {| Re.outer := [];
              Re.cur := {| Re.alts := [];
                           Re.items := rev (map Re.Chr p) ++ its |};
              Re.last := Re.Plain; Re.pmode := Re.Normal |} rest.
Proof.
  induction p as [| c p IH]; intros its rest Hp; [reflexivity |].
  cbn [forallb] in Hp. apply andb_true_iff in Hp as [Hc Hp].
  apply negb_true_iff in Hc.
  change ((c :: p) ++ rest) with (c :: (p ++ rest)).
  cbn [Re.run Re.step Re.pmode]. rewrite (normal_step_plain _ _ Hc).
  unfold Re.push_item. cbn [Re.outer Re.cur Re.alts Re.items].
  rewrite (IH (Re.Chr c :: its) rest Hp).
  cbn [map rev]. now rewrite <- app_assoc.
Qed.

Lemma chars_append s t :
  Text.chars (String.append s t) = Text.chars s ++ Text.chars t.
Proof.
  unfold Text.chars. induction s as [| c s IH]; simpl; [reflexivity |].
  now rewrite IH.
Qed.

Lemma lower_append s t :
  Text.lower (String.append s t)
  = String.append (Text.lower s) (Text.lower t).
Proof. induction s as [| c s IH]; simpl; [reflexivity | now rewrite IH]. Qed.

(** A query that ends with an opening parenthesis after text without
    special characters makes [filtered_data] raise [re.error], whatever the
    dataset, an empty one included. *)
Theorem unclosed_parenthesis_raises data query :
  plain_text query = true ->
  filtered_data data (String.append query "(")
  = Raises (re_error Re.MissingParenthesis).
Proof.
  intros Hp. unfold filtered_data.
  assert (He : Text.is_empty (String.append query "(") = false)
    by now destruct query.
  rewrite He, lower_append.
  unfold Re.compile. rewrite chars_append.
  unfold Re.start, Re.empty_frame.
  rewrite run_plain_prefix by (apply plain_text_lower, Hp).
  reflexivity.
Qed.

Lemma unclosed_parenthesis_raises_witness :
  filtered_data [] "Shark (" = Raises (re_error Re.MissingParenthesis).
Proof. exact (unclosed_parenthesis_raises [] "Shark " eq_refl). Defined.

(** For a query that is not empty, is ASCII and has no character that
    [re.compile] reads specially, on a dataset whose searched cells are
    ASCII and whose searched columns each hold a string, [filtered_data]
    returns exactly the rows in which the lowercased query is a substring
    of the lowercased value of one of the eight searched columns, a missing
    value never matching. *)
Theorem plain_query_is_substring_search data query :
  query <> EmptyString -> plain_text query = true ->
  Text.is_ascii query = true ->
  forallb has_str_accessor (columns_after_name data) = true ->
  ascii_cells data = true ->
  filtered_data data query
  = Returns (List.filter (spec_row_matches query) data).
Proof. intros Hne Hp Hq Hacc Hcells. now apply filtered_data_plain. Qed.

Lemma plain_query_is_substring_search_witness :
  filtered_data fallback_dataset "shark"
  = Returns (List.filter (spec_row_matches "shark") fallback_dataset).
Proof.
  exact (plain_query_is_substring_search fallback_dataset "shark"
           ltac:(discriminate) eq_refl eq_refl eq_refl eq_refl).
Defined.



(** ** What [initialize_ratings_table] leaves behind *)

(** [initialize_ratings_table] returns [True] exactly when a connection
    opens; the database reached then has the table with the rows it had, if
    any, and the index, and nothing else changes.  Without a connection it
    returns [False] and changes nothing. *)
Theorem initialize_ratings_table_result token e w :
  let w1 := fst (initialize_ratings_table token e w) in
  let ok := snd (initialize_ratings_table token e w) in
  match get_duckdb_connection token e with
  | Some b =>
      ok = true
      /\ db_of b w1 = table_of (rows_of (db_of b w))
      /\ (forall b', b' <> b -> db_of b' w1 = db_of b' w)
      /\ ratings_backup w1 = ratings_backup w
  | None => ok = false /\ w1 = w
  end.
Proof.
  intros w1 ok. unfold w1, ok.
  destruct (get_duckdb_connection token e) as [b |] eqn:Hc.
  - rewrite (initialize_ratings_table_connected _ _ _ _ Hc). cbn [fst snd].
    split; [reflexivity |]. split; [apply db_of_set_db |]. split.
    + intros b' Hb. now apply rows_of_other_db.
    + now destruct b.
  - unfold initialize_ratings_table. rewrite Hc. auto.
Qed.
